(** * Colored point-cloud registration (cupoch): the example driver and the
      registration core it drives

    Part I embeds [examples/python/advanced/colored_pointcloud_registration.py]:
    Python objects live in a store of references, library calls are the
    fields of an interface, and every call the script makes is recorded as
    an event, so that statements about "what is passed to which call" are
    statements about the emitted trace.

    Part II models the registration core that the script calls (voxel
    down-sampling, correspondence search, the transformation estimators and
    the ICP loop) from the design document, over exact rationals. *)

From Stdlib Require Import Floats ZArith QArith Qcanon Qround Field Lia.
From stdpp Require Import base option list gmap strings.

Set Warnings "-inexact-float".
Set Default Proof Using "Type".

(* ===================================================================== *)
(** * Part I: the example script                                          *)
(* ===================================================================== *)

Module Script.

(** ** Values of the script *)

(** A numpy array of shape (4,4), row major; Python floats are binary64. *)
Definition matrix := list (list float).

(** [np.identity(n)] *)
Definition np_identity (n : nat) : matrix :=
  map (fun i => map (fun j => if Nat.eqb i j then 1%float else 0%float) (seq 0 n))
      (seq 0 n).

(** Rounding of one binary64 value to binary32 (24-bit significand, maximal
    exponent 128), kept in a binary64 as numpy's float32 values are when
    they are read back. *)
Definition round_float32 (x : float) : float :=
  match Prim2SF x with
  | S754_finite s m e => SF2Prim (binary_round 24 128 s m e)
  | _ => x
  end.

(** [a.astype(np.float32)]: a new array, the receiver is not changed. *)
Definition astype_float32 (a : matrix) : matrix := map (map round_float32) a.

(** [cph.geometry.KDTreeSearchParamRadius(radius=..., max_nn=...)] *)
Record KDTreeSearchParamRadius := {
  radius : float;
  max_nn : Z;
}.

(** [cph.registration.ICPConvergenceCriteria(...)] *)
Record ICPConvergenceCriteria := {
  relative_fitness : float;
  relative_rmse : float;
  max_iteration : Z;
}.

(** What [registration_icp] and [registration_colored_icp] return. *)
Record RegistrationResult := {
  transformation : matrix;
  fitness : float;
  inlier_rmse : float;
}.

Inductive TransformationEstimation :=
| TransformationEstimationPointToPoint
| TransformationEstimationPointToPlane.

(** Python exceptions that can end the script. *)
Inductive exn :=
| IndexError
| ReferenceError
| LibraryError (msg : string).

(** ** The library interface

    The script is a client of cupoch; the library's operations are the
    fields of this class, each one a function of the values of the objects
    it is given, which may raise.  [estimate_normals] and [transform] give
    the new value of the receiver, which they update in place. *)
Class Cupoch (cloud : Type) := {
  read_point_cloud : string -> exn + cloud;
  voxel_down_sample : cloud -> float -> exn + cloud;
  estimate_normals : cloud -> KDTreeSearchParamRadius -> exn + cloud;
  transform : cloud -> matrix -> exn + cloud;
  registration_icp :
    cloud -> cloud -> float -> matrix -> TransformationEstimation ->
    exn + RegistrationResult;
  registration_colored_icp :
    cloud -> cloud -> float -> matrix -> ICPConvergenceCriteria ->
    exn + RegistrationResult;
}.

(** ** Store, events and the monad of the script *)

Definition loc := positive.

(** What [print] is given. *)
Inductive printed :=
| PStr (s : string)
| PFormat (fmt : string) (x : float)
| PLevel (iter : Z) (radius : float) (scale : nat)
| PResult (r : RegistrationResult).

Inductive event :=
| EvPrint (p : printed)
| EvRead (path : string) (dst : loc)
| EvDeepcopy (src dst : loc)
| EvTransform (l : loc) (m : matrix)
| EvDraw (ls : list loc)
| EvDownsample (src : loc) (voxel_size : float) (dst : loc)
| EvEstimateNormals (l : loc) (p : KDTreeSearchParamRadius)
| EvICP (src tgt : loc) (max_dist : float) (init : matrix)
        (est : TransformationEstimation) (res : exn + RegistrationResult)
| EvColoredICP (src tgt : loc) (max_dist : float) (init : matrix)
        (crit : ICPConvergenceCriteria) (res : exn + RegistrationResult).

Section Program.
Context {cloud : Type} {lib : Cupoch cloud}.

(** The outcome of running a piece of the script from a store: its value
    or the exception that ended it, the store it leaves, and the events it
    emitted, oldest first. *)
Record outcome (A : Type) := Outcome {
  value : exn + A;
  final : gmap loc cloud;
  emitted : list event;
}.
Global Arguments Outcome {A} _ _ _.
Global Arguments value {A} _.
Global Arguments final {A} _.
Global Arguments emitted {A} _.

Definition M (A : Type) : Type := gmap loc cloud -> outcome A.

Definition ret {A} (a : A) : M A := fun h => Outcome (inr a) h [].

(** Sequencing: an exception ends the run; the store and the events so far
    are kept. *)
Definition bind {A B} (f : A -> M B) (m : M A) : M B := fun h =>
  let o := m h in
  match value o with
  | inl e => Outcome (inl e) (final o) (emitted o)
  | inr a =>
      let o' := f a (final o) in
      Outcome (value o') (final o') (emitted o ++ emitted o')
  end.

Global Instance M_ret : MRet M := @ret.
Global Instance M_bind : MBind M := @bind.

Definition raise {A} (e : exn) : M A := fun h => Outcome (inl e) h [].

Definition emit (e : event) : M unit := fun h => Outcome (inr tt) h [e].

Definition deref (l : loc) : M cloud := fun h =>
  match h !! l with
  | Some c => Outcome (inr c) h []
  | None => Outcome (inl ReferenceError) h []
  end.

(** A new object: its reference is one the store does not hold yet. *)
Definition alloc (c : cloud) : M loc := fun h =>
  let l := fresh (dom h) in Outcome (inr l) (<[l := c]> h) [].

Definition store (l : loc) (c : cloud) : M unit := fun h =>
  Outcome (inr tt) (<[l := c]> h) [].

Definition lift {A} (r : exn + A) : M A :=
  match r with inl e => raise e | inr a => mret a end.

End Program.

Arguments outcome : clear implicits.
Arguments M : clear implicits.

Section Calls.
Context {cloud : Type} {lib : Cupoch cloud}.

(** ** The calls of the script, on references *)

Definition print (p : printed) : M cloud unit := emit (EvPrint p).

(** [cph.io.read_point_cloud(path)] *)
Definition io_read_point_cloud (path : string) : M cloud loc :=
  c ← lift (read_point_cloud path);
  l ← alloc c;
  emit (EvRead path l);;
  mret l.

(** [copy.deepcopy(x)]: a new object with the value of [x]. *)
Definition deepcopy (x : loc) : M cloud loc :=
  c ← deref x;
  l ← alloc c;
  emit (EvDeepcopy x l);;
  mret l.

(** [x.transform(m)]: in place. *)
Definition do_transform (x : loc) (m : matrix) : M cloud unit :=
  c ← deref x;
  emit (EvTransform x m);;
  c' ← lift (transform c m);
  store x c'.

(** [cph.visualization.draw_geometries(xs)]: the renderer shows the
    geometries it is given and does not change them. *)
Definition draw_geometries (xs : list loc) : M cloud unit :=
  (fix check (ys : list loc) : M cloud unit :=
     match ys with
     | [] => mret tt
     | y :: ys' => deref y;; check ys'
     end) xs;;
  emit (EvDraw xs).

(** [x.voxel_down_sample(v)]: a new cloud. *)
Definition do_voxel_down_sample (x : loc) (v : float) : M cloud loc :=
  c ← deref x;
  c' ← lift (voxel_down_sample c v);
  l ← alloc c';
  emit (EvDownsample x v l);;
  mret l.

(** [x.estimate_normals(p)]: in place. *)
Definition do_estimate_normals (x : loc) (p : KDTreeSearchParamRadius) : M cloud unit :=
  c ← deref x;
  emit (EvEstimateNormals x p);;
  c' ← lift (estimate_normals c p);
  store x c'.

(** [cph.registration.registration_icp(source, target, d, init, est)] *)
Definition do_registration_icp (source target : loc) (d : float) (init : matrix)
    (est : TransformationEstimation) : M cloud RegistrationResult :=
  s ← deref source;
  t ← deref target;
  let r := registration_icp s t d init est in
  emit (EvICP source target d init est r);;
  lift r.

(** [cph.registration.registration_colored_icp(source, target, d, init, crit)] *)
Definition do_registration_colored_icp (source target : loc) (d : float)
    (init : matrix) (crit : ICPConvergenceCriteria) : M cloud RegistrationResult :=
  s ← deref source;
  t ← deref target;
  let r := registration_colored_icp s t d init crit in
  emit (EvColoredICP source target d init crit r);;
  lift r.

(** [xs[i]] on a Python list. *)
Definition index {A} (xs : list A) (i : nat) : M cloud A :=
  match xs !! i with
  | Some x => mret x
  | None => raise IndexError
  end.

(** [for i in range(n): state = body(i, state)] *)
Fixpoint for_range {S} (range : list nat) (body : nat -> S -> M cloud S) (s : S) : M cloud S :=
  match range with
  | [] => mret s
  | i :: range' => s' ← body i s; for_range range' body s'
  end.

(** ** The script *)

Definition draw_registration_result_original_color
    (source target : loc) (transformation : matrix) : M cloud unit :=
  source_temp ← deepcopy source;
  do_transform source_temp (astype_float32 transformation);;
  draw_geometries [source_temp; target].

Definition voxel_radius : list float := [0.04; 0.02; 0.01]%float.
Definition max_iter : list Z := [50; 30; 14]%Z.

(** The variables that the loop of [__main__] carries from one pass to the
    next: [current_transformation] and [result_icp]. *)
Definition loop_state : Type := matrix * RegistrationResult.

(** One pass of [for scale in range(3)]. *)
Definition level (source target : loc) (scale : nat) (st : loop_state) : M cloud loop_state :=
  let current_transformation := fst st in
  iter ← index max_iter scale;
  radius ← index voxel_radius scale;
  print (PLevel iter radius scale);;
  print (PFormat "3-1. Downsample with a voxel size %.2f" radius);;
  source_down ← do_voxel_down_sample source radius;
  target_down ← do_voxel_down_sample target radius;
  print (PStr "3-2. Estimate normal.");;
  do_estimate_normals source_down
    {| radius := (radius * 2)%float; max_nn := 30 |};;
  do_estimate_normals target_down
    {| radius := (radius * 2)%float; max_nn := 30 |};;
  print (PStr "3-3. Applying colored point cloud registration");;
  result_icp ← do_registration_colored_icp source_down target_down radius
    current_transformation
    {| relative_fitness := 1e-6; relative_rmse := 1e-6; max_iteration := iter |};
  let current_transformation := transformation result_icp in
  print (PResult result_icp);;
  mret (current_transformation, result_icp).

Definition multi_scale (source target : loc) (st : loop_state) : M cloud loop_state :=
  for_range (seq 0 3) (level source target) st.

Definition main : M cloud unit :=
  print (PStr "1. Load two point clouds and show initial pose");;
  source ← io_read_point_cloud "../../testdata/colored_icp/frag_115.ply";
  target ← io_read_point_cloud "../../testdata/colored_icp/frag_116.ply";
  let current_transformation := np_identity 4 in
  draw_registration_result_original_color source target current_transformation;;
  let current_transformation := np_identity 4 in
  print (PStr "2. Point-to-plane ICP registration is applied on original point");;
  print (PStr "   clouds to refine the alignment. Distance threshold 0.02.");;
  result_icp ← do_registration_icp source target 0.02 current_transformation
    TransformationEstimationPointToPlane;
  print (PResult result_icp);;
  draw_registration_result_original_color source target (transformation result_icp);;
  let current_transformation := np_identity 4 in
  print (PStr "3. Colored point cloud registration");;
  st ← multi_scale source target (current_transformation, result_icp);
  let result_icp := snd st in
  draw_registration_result_original_color source target (transformation result_icp).

End Calls.

(** ** Reasoning about runs

    [wp m h Q]: the run of [m] from store [h] ends in a value (or an
    exception), a store and a list of emitted events that satisfy [Q]. *)
Section Logic.
Context {cloud : Type} {lib : Cupoch cloud}.

Definition post (A : Type) : Type := exn + A -> gmap loc cloud -> list event -> Prop.

Definition wp {A} (m : M cloud A) (h : gmap loc cloud) (Q : post A) : Prop :=
  Q (value (m h)) (final (m h)) (emitted (m h)).

Lemma wp_mono {A} (m : M cloud A) h (Q Q' : post A) :
  wp m h Q -> (forall v h' es, Q v h' es -> Q' v h' es) -> wp m h Q'.
Proof. unfold wp. auto. Qed.

Lemma wp_ret {A} (a : A) h (Q : post A) : Q (inr a) h [] -> wp (mret a) h Q.
Proof. auto. Qed.

Lemma wp_raise {A} e h (Q : post A) : Q (inl e) h [] -> wp (raise e) h Q.
Proof. auto. Qed.

Lemma wp_bind {A B} (m : M cloud A) (f : A -> M cloud B) h (Q : post B) :
  wp m h (fun v h' es =>
    match v with
    | inl e => Q (inl e) h' es
    | inr a => wp (f a) h' (fun v' h'' es' => Q v' h'' (es ++ es'))
    end) ->
  wp (m ≫= f) h Q.
Proof.
  unfold wp, mbind, M_bind, bind. destruct (value (m h)); simpl; auto.
Qed.

Lemma wp_emit e h (Q : post unit) : Q (inr tt) h [e] -> wp (emit e) h Q.
Proof. auto. Qed.

Lemma wp_print p h (Q : post unit) : Q (inr tt) h [EvPrint p] -> wp (print p) h Q.
Proof. auto. Qed.

Lemma wp_deref l h (Q : post cloud) :
  (h !! l = None -> Q (inl ReferenceError) h []) ->
  (forall c, h !! l = Some c -> Q (inr c) h []) ->
  wp (deref l) h Q.
Proof.
  unfold wp, deref. intros Hn Hs. destruct (h !! l) eqn:E; simpl; auto.
Qed.

Lemma wp_alloc c h (Q : post loc) :
  (forall l, h !! l = None -> Q (inr l) (<[l := c]> h) []) ->
  wp (alloc c) h Q.
Proof.
  unfold wp, alloc. intros HQ. simpl. apply HQ.
  apply not_elem_of_dom, is_fresh.
Qed.

Lemma wp_store l c h (Q : post unit) :
  Q (inr tt) (<[l := c]> h) [] -> wp (store l c) h Q.
Proof. auto. Qed.

Lemma wp_lift {A} (r : exn + A) h (Q : post A) :
  (forall e, r = inl e -> Q (inl e) h []) ->
  (forall a, r = inr a -> Q (inr a) h []) ->
  wp (lift r) h Q.
Proof. destruct r; unfold wp; simpl; auto. Qed.

Lemma wp_index {A} (xs : list A) i h (Q : post A) :
  (xs !! i = None -> Q (inl IndexError) h []) ->
  (forall x, xs !! i = Some x -> Q (inr x) h []) ->
  wp (index xs i) h Q.
Proof.
  unfold wp, index. intros Hn Hs. destruct (xs !! i) eqn:E; simpl; auto.
Qed.

End Logic.

(** Steps through a sequence of calls, one rule at a time. *)
Ltac wp_step :=
  lazymatch goal with
  | |- wp (_ ≫= _) _ _ => apply wp_bind
  | |- wp (mret _) _ _ => apply wp_ret
  | |- wp (raise _) _ _ => apply wp_raise
  | |- wp (emit _) _ _ => apply wp_emit
  | |- wp (print _) _ _ => apply wp_print
  | |- wp (store _ _) _ _ => apply wp_store
  | |- wp (deref _) _ _ => apply wp_deref; [intros ? | intros ? ?]
  | |- wp (alloc _) _ _ => apply wp_alloc; intros ? ?
  | |- wp (lift _) _ _ => apply wp_lift; [intros ? ? | intros ? ?]
  | |- wp (index _ _) _ _ => apply wp_index; [intros ? | intros ? ?]
  end.

Ltac wp_steps := repeat (wp_step; simpl).

(** ** What each call of the script does to the store and the trace *)
Section CallSpecs.
Context {cloud : Type} {lib : Cupoch cloud}.

Lemma wp_deepcopy x (h : gmap loc cloud) (Q : post loc) :
  (h !! x = None -> Q (inl ReferenceError) h []) ->
  (forall c l, h !! x = Some c -> h !! l = None ->
     Q (inr l) (<[l := c]> h) [EvDeepcopy x l]) ->
  wp (deepcopy x) h Q.
Proof.
  intros Hn Hs. unfold deepcopy. wp_steps; eauto.
Qed.

Lemma wp_do_transform x m (h : gmap loc cloud) (Q : post unit) :
  (h !! x = None -> Q (inl ReferenceError) h []) ->
  (forall c e, h !! x = Some c -> transform c m = inl e ->
     Q (inl e) h [EvTransform x m]) ->
  (forall c c', h !! x = Some c -> transform c m = inr c' ->
     Q (inr tt) (<[x := c']> h) [EvTransform x m]) ->
  wp (do_transform x m) h Q.
Proof.
  intros Hn He Hs. unfold do_transform. wp_steps; eauto.
Qed.

Lemma wp_draw_geometries xs (h : gmap loc cloud) (Q : post unit) :
  (Q (inl ReferenceError) h []) ->
  (Forall (fun x => is_Some (h !! x)) xs -> Q (inr tt) h [EvDraw xs]) ->
  wp (draw_geometries xs) h Q.
Proof.
  intros Hn Hs. unfold draw_geometries. apply wp_bind.
  set (check := fix check (ys : list loc) : M cloud unit :=
     match ys with [] => mret tt | y :: ys' => deref y;; check ys' end).
  assert (Hc: forall ys, wp (check ys) h (fun v h' es =>
            h' = h /\ es = [] /\
            match v with
            | inl e => e = ReferenceError
            | inr _ => Forall (fun x => is_Some (h !! x)) ys
            end)).
  { induction ys as [|y ys IH]; simpl.
    - apply wp_ret. auto.
    - wp_steps; auto.
      eapply wp_mono; [apply IH|]. simpl.
      intros [e|[]] h' es (-> & -> & Hv); repeat split; eauto. }
  eapply wp_mono; [apply Hc|]. simpl.
  intros [e|[]] h' es (-> & -> & Hv).
  - subst e. exact Hn.
  - wp_steps. auto.
Qed.

Lemma wp_io_read_point_cloud path (h : gmap loc cloud) (Q : post loc) :
  (forall e, read_point_cloud path = inl e -> Q (inl e) h []) ->
  (forall c l, read_point_cloud path = inr c -> h !! l = None ->
     Q (inr l) (<[l := c]> h) [EvRead path l]) ->
  wp (io_read_point_cloud path) h Q.
Proof.
  intros He Hs. unfold io_read_point_cloud. wp_steps; eauto.
Qed.

Lemma wp_do_voxel_down_sample x v (h : gmap loc cloud) (Q : post loc) :
  (forall e, Q (inl e) h []) ->
  (forall c c' l, h !! x = Some c -> voxel_down_sample c v = inr c' ->
     h !! l = None -> Q (inr l) (<[l := c']> h) [EvDownsample x v l]) ->
  wp (do_voxel_down_sample x v) h Q.
Proof.
  intros He Hs. unfold do_voxel_down_sample. wp_steps; eauto.
Qed.

Lemma wp_do_estimate_normals x p (h : gmap loc cloud) (Q : post unit) :
  (h !! x = None -> Q (inl ReferenceError) h []) ->
  (forall c e, h !! x = Some c -> estimate_normals c p = inl e ->
     Q (inl e) h [EvEstimateNormals x p]) ->
  (forall c c', h !! x = Some c -> estimate_normals c p = inr c' ->
     Q (inr tt) (<[x := c']> h) [EvEstimateNormals x p]) ->
  wp (do_estimate_normals x p) h Q.
Proof.
  intros Hn He Hs. unfold do_estimate_normals. wp_steps; eauto.
Qed.

Lemma wp_do_registration_icp s t d init est (h : gmap loc cloud) (Q : post RegistrationResult) :
  (Q (inl ReferenceError) h []) ->
  (forall cs ct e, h !! s = Some cs -> h !! t = Some ct ->
     registration_icp cs ct d init est = inl e ->
     Q (inl e) h [EvICP s t d init est (inl e)]) ->
  (forall cs ct r, h !! s = Some cs -> h !! t = Some ct ->
     registration_icp cs ct d init est = inr r ->
     Q (inr r) h [EvICP s t d init est (inr r)]) ->
  wp (do_registration_icp s t d init est) h Q.
Proof.
  intros Hn He Hs. unfold do_registration_icp. wp_steps; auto.
  - match goal with H : registration_icp _ _ _ _ _ = _ |- _ => rewrite H end.
    eauto.
  - match goal with H : registration_icp _ _ _ _ _ = _ |- _ => rewrite H end.
    eauto.
Qed.

Lemma wp_do_registration_colored_icp s t d init crit (h : gmap loc cloud) (Q : post RegistrationResult) :
  (Q (inl ReferenceError) h []) ->
  (forall cs ct e, h !! s = Some cs -> h !! t = Some ct ->
     registration_colored_icp cs ct d init crit = inl e ->
     Q (inl e) h [EvColoredICP s t d init crit (inl e)]) ->
  (forall cs ct r, h !! s = Some cs -> h !! t = Some ct ->
     registration_colored_icp cs ct d init crit = inr r ->
     Q (inr r) h [EvColoredICP s t d init crit (inr r)]) ->
  wp (do_registration_colored_icp s t d init crit) h Q.
Proof.
  intros Hn He Hs. unfold do_registration_colored_icp. wp_steps; auto.
  - match goal with H : registration_colored_icp _ _ _ _ _ = _ |- _ => rewrite H end.
    eauto.
  - match goal with H : registration_colored_icp _ _ _ _ _ = _ |- _ => rewrite H end.
    eauto.
Qed.

(** *** One pass of the loop

    The events of one pass, in the order in which the script makes the
    calls; a pass that ends in an exception emits a prefix of them. *)
Definition level_events (src tgt : loc) (it : Z) (r : float) (scale : nat)
    (init : matrix) (sd td : loc) (res : exn + RegistrationResult) : list event :=
  [ EvPrint (PLevel it r scale);
    EvPrint (PFormat "3-1. Downsample with a voxel size %.2f" r);
    EvDownsample src r sd;
    EvDownsample tgt r td;
    EvPrint (PStr "3-2. Estimate normal.");
    EvEstimateNormals sd {| radius := (r * 2)%float; max_nn := 30 |};
    EvEstimateNormals td {| radius := (r * 2)%float; max_nn := 30 |};
    EvPrint (PStr "3-3. Applying colored point cloud registration");
    EvColoredICP sd td r init
      {| relative_fitness := 1e-6; relative_rmse := 1e-6; max_iteration := it |} res ]
  ++ match res with inr rr => [EvPrint (PResult rr)] | inl _ => [] end.

Definition level_post (src tgt : loc) (it : Z) (r : float) (scale : nat)
    (init : matrix) : @post cloud loop_state := fun v _ es =>
  exists sd td,
    match v with
    | inr st' => exists rr,
        es = level_events src tgt it r scale init sd td (inr rr) /\
        st' = (transformation rr, rr)
    | inl _ => exists e' n,
        es = take n (level_events src tgt it r scale init sd td (inl e'))
    end.

Lemma wp_level src tgt scale it r (st : loop_state) (h : gmap loc cloud) :
  max_iter !! scale = Some it ->
  voxel_radius !! scale = Some r ->
  wp (level src tgt scale st) h (level_post src tgt it r scale (fst st)).
Proof.
  intros Hit Hr. unfold level, level_post.
  apply wp_bind, wp_index; [congruence|]. intros ? [= <-]%(eq_trans (eq_sym Hit)).
  apply wp_bind, wp_index; [congruence|]. intros ? [= <-]%(eq_trans (eq_sym Hr)).
  apply wp_bind, wp_print. apply wp_bind, wp_print. simpl.
  apply wp_bind, wp_do_voxel_down_sample.
  { intros e. exists 1%positive, 1%positive, e, 2. reflexivity. }
  intros cs cs' sd _ _ _. simpl.
  apply wp_bind, wp_do_voxel_down_sample.
  { intros e. exists sd, 1%positive, e, 3. reflexivity. }
  intros ct ct' td _ _ _. simpl.
  apply wp_bind, wp_print. simpl.
  apply wp_bind, wp_do_estimate_normals.
  { intros _. exists sd, td, ReferenceError, 5. reflexivity. }
  { intros ? e _ _. exists sd, td, e, 6. reflexivity. }
  intros ? ? _ _. simpl.
  apply wp_bind, wp_do_estimate_normals.
  { intros _. exists sd, td, ReferenceError, 6. reflexivity. }
  { intros ? e _ _. exists sd, td, e, 7. reflexivity. }
  intros ? ? _ _. simpl.
  apply wp_bind, wp_print. simpl.
  apply wp_bind, wp_do_registration_colored_icp.
  { exists sd, td, ReferenceError, 8. reflexivity. }
  { intros ? ? e _ _ _. exists sd, td, e, 9. reflexivity. }
  intros ? ? rr _ _ _. simpl.
  apply wp_bind, wp_print. simpl. apply wp_ret.
  exists sd, td, rr. split; reflexivity.
Qed.

(** *** The drawing helper *)

Definition draw_events (src tgt : loc) (T : matrix) (l : loc) : list event :=
  [ EvDeepcopy src l; EvTransform l (astype_float32 T); EvDraw [l; tgt] ].

(** Every object that the store held keeps its value: the one object that
    is written is the copy, whose reference is new. *)
Definition draw_post (src tgt : loc) (T : matrix) (h : gmap loc cloud) : @post cloud unit :=
  fun v h' es =>
    (forall x, is_Some (h !! x) -> h' !! x = h !! x) /\
    exists l, h !! l = None /\
      match v with
      | inr _ => es = draw_events src tgt T l
      | inl _ => exists n, es = take n (draw_events src tgt T l)
      end.

Lemma wp_draw_registration_result_original_color src tgt T (h : gmap loc cloud) :
  wp (draw_registration_result_original_color src tgt T) h (draw_post src tgt T h).
Proof.
  unfold draw_registration_result_original_color, draw_post.
  assert (Hfresh : h !! fresh (dom h) = None)
    by apply not_elem_of_dom, is_fresh.
  apply wp_bind, wp_deepcopy.
  { intros _. split; [done|]. exists (fresh (dom h)). split; [done|].
    exists 0. reflexivity. }
  intros c l Hsrc Hl. simpl.
  assert (Hframe : forall c' x, is_Some (h !! x) -> <[l := c']> h !! x = h !! x).
  { intros c' x [cx Hx]. rewrite lookup_insert_ne; congruence. }
  apply wp_bind, wp_do_transform.
  { intros _. split; [apply Hframe|]. exists l. split; [done|]. exists 1. reflexivity. }
  { intros ? e _ _. split; [apply Hframe|]. exists l. split; [done|].
    exists 2. reflexivity. }
  intros c0 c' _ _. simpl. rewrite insert_insert_eq.
  apply wp_draw_geometries.
  { split; [apply Hframe|]. exists l. split; [done|]. exists 2. reflexivity. }
  intros _. split; [apply Hframe|]. exists l. split; [done|]. reflexivity.
Qed.

End CallSpecs.

(** ** Traces of the multi-scale loop *)

(** The events of the passes over [range] from the loop state [st], and
    the loop state the passes leave, if no pass raised. *)
Inductive levels_trace (src tgt : loc) :
    loop_state -> list nat -> list event -> option loop_state -> Prop :=
| LT_done st : levels_trace src tgt st [] [] (Some st)
| LT_pass st scale range it r sd td rr es out :
    max_iter !! scale = Some it ->
    voxel_radius !! scale = Some r ->
    levels_trace src tgt (transformation rr, rr) range es out ->
    levels_trace src tgt st (scale :: range)
      (level_events src tgt it r scale (fst st) sd td (inr rr) ++ es) out
| LT_raise st scale range it r sd td e n :
    max_iter !! scale = Some it ->
    voxel_radius !! scale = Some r ->
    levels_trace src tgt st (scale :: range)
      (take n (level_events src tgt it r scale (fst st) sd td (inl e))) None
| LT_index st scale range :
    max_iter !! scale = None \/ voxel_radius !! scale = None ->
    levels_trace src tgt st (scale :: range) [] None.

(** Events that are not part of a pass of the loop. *)
Definition quiet (e : event) : Prop :=
  match e with
  | EvColoredICP _ _ _ _ _ _ | EvEstimateNormals _ _ | EvDownsample _ _ _
  | EvPrint (PLevel _ _ _) => False
  | _ => True
  end.

(** The events of [__main__] before the loop, in a run that reaches it. *)
Definition prelude_events (s t l0 : loc) (r0 : RegistrationResult) (l1 : loc) : list event :=
  [ EvPrint (PStr "1. Load two point clouds and show initial pose");
    EvRead "../../testdata/colored_icp/frag_115.ply" s;
    EvRead "../../testdata/colored_icp/frag_116.ply" t ]
  ++ draw_events s t (np_identity 4) l0
  ++ [ EvPrint (PStr "2. Point-to-plane ICP registration is applied on original point");
       EvPrint (PStr "   clouds to refine the alignment. Distance threshold 0.02.");
       EvICP s t 0.02 (np_identity 4) TransformationEstimationPointToPlane (inr r0);
       EvPrint (PResult r0) ]
  ++ draw_events s t (transformation r0) l1
  ++ [ EvPrint (PStr "3. Colored point cloud registration") ].

(** The colored-ICP solves of a trace, oldest first: the initial
    transformation each was given and what it returned. *)
Definition colored_solves (es : list event) : list (matrix * (exn + RegistrationResult)) :=
  omap (fun e =>
          match e with
          | EvColoredICP _ _ _ init _ res => Some (init, res)
          | _ => None
          end) es.

(** A chain of solves seeded with [seed]: the first is given [seed], and a
    solve that returned is followed by one that is given the transformation
    it returned; a solve that raised is the last. *)
Fixpoint seeded (seed : matrix) (calls : list (matrix * (exn + RegistrationResult))) : Prop :=
  match calls with
  | [] => True
  | (init, res) :: rest =>
      init = seed /\
      match res with
      | inr r => seeded (transformation r) rest
      | inl _ => rest = []
      end
  end.

(** [d] is [2 * v] without rounding: same sign and significand, exponent
    one higher. *)
Definition exactly_twice (v d : float) : Prop :=
  match Prim2SF v, Prim2SF d with
  | S754_finite s m e, S754_finite s' m' e' => s = s' /\ m = m' /\ e' = (e + 1)%Z
  | _, _ => False
  end.

(** The calls of a trace fit the pass they belong to.  A pass starts when
    the script announces it ([print([iter, radius, scale])]); [cur] is the
    voxel size of the pass in progress, with the clouds down-sampled in it
    so far (none before the first pass).  Down-sampling uses the voxel size
    of the pass; a normal estimation is on a cloud down-sampled in the
    pass, within twice the voxel size and with at most 30 neighbours; a
    colored-ICP solve is between two clouds down-sampled in the pass, with
    the voxel size as maximal correspondence distance. *)
Fixpoint levels_ok (cur : option (float * list loc)) (es : list event) : Prop :=
  match es with
  | [] => True
  | EvPrint (PLevel _ r scale) :: es' =>
      voxel_radius !! scale = Some r /\ levels_ok (Some (r, [])) es'
  | EvDownsample _ v dst :: es' =>
      exists r ds, cur = Some (r, ds) /\ v = r /\ levels_ok (Some (r, dst :: ds)) es'
  | EvEstimateNormals l p :: es' =>
      (exists r ds, cur = Some (r, ds) /\ In l ds /\
         radius p = (r * 2)%float /\ exactly_twice r (radius p) /\
         max_nn p = 30%Z) /\
      levels_ok cur es'
  | EvColoredICP s t d _ _ _ :: es' =>
      (exists r ds, cur = Some (r, ds) /\ In s ds /\ In t ds /\ d = r) /\
      levels_ok cur es'
  | _ :: es' => levels_ok cur es'
  end.

(** A small library to run the script on: every call returns, the clouds
    it reads are one point and stay as they are, and a solve returns its
    initial transformation with every entry raised by the distance it was
    given. *)
Definition drifting_library : Cupoch (list (float * float * float)) := {|
  read_point_cloud _ := inr [(0, 0, 0)%float];
  voxel_down_sample c _ := inr c;
  estimate_normals c _ := inr c;
  transform c _ := inr c;
  registration_icp _ _ d init _ :=
    inr {| transformation := map (map (fun x => (x + d)%float)) init;
           fitness := 1; inlier_rmse := 0 |};
  registration_colored_icp _ _ d init _ :=
    inr {| transformation := map (map (fun x => (x + d)%float)) init;
           fitness := 1; inlier_rmse := 0 |};
|}.

(** The search parameters of the normal estimations of a trace, and the
    maximal correspondence distances of its colored-ICP solves. *)
Definition normals_params (es : list event) : list KDTreeSearchParamRadius :=
  omap (fun e => match e with EvEstimateNormals _ p => Some p | _ => None end) es.

Definition solve_distances (es : list event) : list float :=
  omap (fun e => match e with EvColoredICP _ _ d _ _ _ => Some d | _ => None end) es.

Section MainSpecs.
Context {cloud : Type} {lib : Cupoch cloud}.

Lemma wp_for_range_levels src tgt range (st : loop_state) (h : gmap loc cloud) :
  wp (for_range range (level src tgt) st) h (fun v _ es =>
    levels_trace src tgt st range es
      (match v with inr st' => Some st' | inl _ => None end)).
Proof.
  revert st h. induction range as [|scale range IH]; intros st h; simpl.
  - apply wp_ret. constructor.
  - apply wp_bind.
    destruct (max_iter !! scale) as [it|] eqn:Hit;
      [destruct (voxel_radius !! scale) as [r|] eqn:Hr|].
    + eapply wp_mono; [by apply wp_level|]. simpl.
      intros [e|st'] h' es (sd & td & Hv).
      * destruct Hv as (e' & n & ->). by eapply LT_raise.
      * destruct Hv as (rr & -> & ->).
        eapply wp_mono; [apply IH|]. simpl. intros v h'' es' Hes'.
        by eapply LT_pass.
    + unfold level. apply wp_bind, wp_index; [|intros; simpl].
      * intros _. apply LT_index. auto.
      * apply wp_bind, wp_index; [|congruence]. intros _. apply LT_index. auto.
    + unfold level. apply wp_bind, wp_index; [|congruence].
      intros _. apply LT_index. auto.
Qed.

Lemma quiet_draw_events src tgt T l n : Forall quiet (take n (draw_events src tgt T l)).
Proof. apply Forall_take. repeat constructor. Qed.

(** The trace of a run of [__main__]: the events before the loop, those of
    the loop, and those after it. *)
Definition main_post : @post cloud unit := fun v _ es =>
  exists s t st0 pre mid fin out,
    es = pre ++ mid ++ fin /\
    Forall quiet pre /\ Forall quiet fin /\
    fst st0 = np_identity 4 /\
    levels_trace s t st0 (seq 0 3) mid out /\
    match v with
    | inr _ => exists l0 l1 l2 st',
        pre = prelude_events s t l0 (snd st0) l1 /\
        out = Some st' /\
        fin = draw_events s t (transformation (snd st')) l2
    | inl _ => True
    end.

Lemma levels_trace_nothing src tgt st :
  levels_trace src tgt st (seq 0 3) [] None.
Proof.
  apply (LT_raise src tgt st 0 [1; 2] 50%Z 0.04%float 1%positive 1%positive IndexError 0);
    reflexivity.
Qed.

Ltac quiet_tac :=
  repeat first
    [ apply Forall_nil_2 | apply quiet_draw_events
    | apply Forall_cons_2; [exact I|] | apply Forall_app_2 ].

Ltac early_exit :=
  let r := constr:({| transformation := []; fitness := 0; inlier_rmse := 0 |}) in
  eexists 1%positive, 1%positive, (np_identity 4, r), _, [], [], None;
  split_and!;
  [ rewrite app_nil_r; reflexivity | quiet_tac | constructor | reflexivity
  | apply levels_trace_nothing | exact I ].

Lemma wp_main (h : gmap loc cloud) : wp main h main_post.
Proof.
  unfold main, main_post.
  apply wp_bind, wp_print. simpl.
  apply wp_bind, wp_io_read_point_cloud; [intros; early_exit|].
  intros cs s _ _. simpl.
  apply wp_bind, wp_io_read_point_cloud; [intros; early_exit|].
  intros ct t _ _. simpl.
  apply wp_bind. eapply wp_mono;
    [apply wp_draw_registration_result_original_color|]. simpl.
  intros [e|[]] h1 es1 (_ & l0 & _ & Hes1).
  { destruct Hes1 as (n & ->). early_exit. }
  subst es1.
  apply wp_bind, wp_print. apply wp_bind, wp_print. simpl.
  apply wp_bind, wp_do_registration_icp.
  { early_exit. }
  { intros. early_exit. }
  intros _ _ r0 _ _ _. simpl.
  apply wp_bind, wp_print. simpl.
  apply wp_bind. eapply wp_mono;
    [apply wp_draw_registration_result_original_color|]. simpl.
  intros [e|[]] h2 es2 (_ & l1 & _ & Hes2).
  { destruct Hes2 as (n & ->). early_exit. }
  subst es2.
  apply wp_bind, wp_print. simpl.
  apply wp_bind. unfold multi_scale. eapply wp_mono;
    [apply wp_for_range_levels|]. simpl.
  intros [e|st'] h3 mid Hmid.
  { exists s, t, (np_identity 4, r0), (prelude_events s t l0 r0 l1), mid, [], None.
    split_and!; [by rewrite app_nil_r | quiet_tac | constructor | done | done | done]. }
  eapply wp_mono; [apply wp_draw_registration_result_original_color|]. simpl.
  intros v h4 es4 (_ & l2 & _ & Hes4).
  exists s, t, (np_identity 4, r0), (prelude_events s t l0 r0 l1), mid, es4, (Some st').
  split_and!; [done | quiet_tac | | done | done |].
  - destruct v as [e|[]]; [destruct Hes4 as (n & ->)|subst es4]; quiet_tac.
  - destruct v as [e|[]]; [done|]. exists l0, l1, l2, st'. auto.
Qed.

End MainSpecs.

(** ** Facts about traces *)

Lemma colored_solves_app es es' :
  colored_solves (es ++ es') = colored_solves es ++ colored_solves es'.
Proof. apply omap_app. Qed.

Lemma colored_solves_quiet es : Forall quiet es -> colored_solves es = [].
Proof.
  induction 1 as [|e es He _ IH]; [done|].
  destruct e; simpl in *; done.
Qed.

Lemma colored_solves_level_raise src tgt it r scale init sd td e n :
  let cs := colored_solves (take n (level_events src tgt it r scale init sd td (inl e))) in
  cs = [] \/ cs = [(init, inl e)].
Proof.
  do 8 (destruct n as [|n]; [left; reflexivity|]).
  destruct n as [|n]; [left|right; destruct n]; reflexivity.
Qed.

Lemma levels_trace_seeded src tgt st range es out :
  levels_trace src tgt st range es out -> seeded (fst st) (colored_solves es).
Proof.
  induction 1 as [st|st scale range it r sd td rr es out _ _ _ IH
                 |st scale range it r sd td e n _ _|]; simpl; auto.
  pose proof (colored_solves_level_raise src tgt it r scale (fst st) sd td e n) as [H|H];
    simpl in H; rewrite H; simpl; auto.
Qed.

Lemma levels_trace_three src tgt st es st' :
  levels_trace src tgt st (seq 0 3) es (Some st') ->
  exists sd0 td0 r1 sd1 td1 r2 sd2 td2 r3,
    es = level_events src tgt 50 0.04 0 (fst st) sd0 td0 (inr r1)
         ++ level_events src tgt 30 0.02 1 (transformation r1) sd1 td1 (inr r2)
         ++ level_events src tgt 14 0.01 2 (transformation r2) sd2 td2 (inr r3) /\
    st' = (transformation r3, r3).
Proof.
  intros H.
  inversion H as [|? ? ? it0 v0 sd0 td0 r1 es0 ? Hi0 Hv0 H0| |]; subst; clear H.
  inversion H0 as [|? ? ? it1 v1 sd1 td1 r2 es1 ? Hi1 Hv1 H1| |]; subst; clear H0.
  inversion H1 as [|? ? ? it2 v2 sd2 td2 r3 es2 ? Hi2 Hv2 H2| |]; subst; clear H1.
  inversion H2; subst; clear H2.
  injection Hi0 as <-. injection Hv0 as <-.
  injection Hi1 as <-. injection Hv1 as <-.
  injection Hi2 as <-. injection Hv2 as <-.
  exists sd0, td0, r1, sd1, td1, r2, sd2, td2, r3. split; [|reflexivity].
  simpl. reflexivity.
Qed.

Lemma exactly_twice_voxel_radius scale r :
  voxel_radius !! scale = Some r -> exactly_twice r (r * 2)%float.
Proof.
  destruct scale as [|[|[|scale]]]; simpl; intros [= <-];
    vm_compute; auto.
Qed.

Lemma levels_ok_quiet cur es es' :
  Forall quiet es -> levels_ok cur (es ++ es') <-> levels_ok cur es'.
Proof.
  induction 1 as [|e es He _ IH]; [done|].
  destruct e as [[]| | | | | | | |]; simpl in *; done.
Qed.

Lemma levels_ok_nil_quiet cur es : Forall quiet es -> levels_ok cur es.
Proof.
  intros H. rewrite <- (app_nil_r es). by apply levels_ok_quiet.
Qed.

Lemma levels_ok_then_quiet cur es fin :
  levels_ok cur es -> Forall quiet fin -> levels_ok cur (es ++ fin).
Proof.
  intros Hes Hfin. revert cur Hes.
  induction es as [|e es IH]; intros cur Hes; simpl.
  - by apply levels_ok_nil_quiet.
  - destruct e as [[]| | | | | | | |]; simpl in *; eauto.
    + destruct Hes; eauto.
    + destruct Hes as (r & ds & ? & ? & ?); eauto 10.
    + destruct Hes; eauto.
    + destruct Hes; eauto.
Qed.

Lemma levels_ok_level src tgt it r scale init sd td rr cur es :
  voxel_radius !! scale = Some r ->
  (forall cur', levels_ok cur' es) ->
  levels_ok cur (level_events src tgt it r scale init sd td (inr rr) ++ es).
Proof.
  intros Hr Hes. pose proof (exactly_twice_voxel_radius _ _ Hr) as Ht.
  simpl. split; [done|]. eexists _, _. split; [done|]. split; [done|].
  eexists _, _. split; [done|]. split; [done|].
  repeat split; auto;
    exists r, [td; sd]; simpl; repeat split; auto.
Qed.

Lemma levels_ok_take cur es n : levels_ok cur es -> levels_ok cur (take n es).
Proof.
  revert cur n. induction es as [|e es IH]; intros cur [|n] Hes; simpl; try done.
  destruct e as [[]| | | | | | | |]; simpl in *; eauto.
  - destruct Hes; eauto.
  - destruct Hes as (r & ds & ? & ? & ?); eauto 10.
  - destruct Hes; eauto.
  - destruct Hes; eauto.
Qed.

Lemma levels_ok_level_raise src tgt it r scale init sd td e n cur :
  voxel_radius !! scale = Some r ->
  levels_ok cur (take n (level_events src tgt it r scale init sd td (inl e))).
Proof.
  intros Hr. pose proof (exactly_twice_voxel_radius _ _ Hr) as Ht.
  apply levels_ok_take.
  simpl. split; [done|]. eexists _, _. split; [done|]. split; [done|].
  eexists _, _. split; [done|]. split; [done|].
  repeat split; auto;
    exists r, [td; sd]; simpl; repeat split; auto.
Qed.

Lemma levels_trace_ok src tgt st range es out fin cur :
  levels_trace src tgt st range es out -> Forall quiet fin ->
  levels_ok cur (es ++ fin).
Proof.
  intros H Hfin. revert cur.
  induction H as [st|st scale range it r sd td rr es out _ Hr _ IH
                 |st scale range it r sd td e n _ Hr|]; intros cur; simpl.
  - by apply levels_ok_nil_quiet.
  - by apply (levels_ok_level src tgt it r scale (fst st) sd td rr cur (es ++ fin)).
  - apply levels_ok_then_quiet; [|done]. by apply levels_ok_level_raise.
  - by apply levels_ok_nil_quiet.
Qed.

(** ** What the script computes

    The values that a run computes, written as functions of the values that
    the library returns: the clouds are passed by value and the calls are
    made in the order of the script, the first exception ending the
    computation. *)

Definition and_then {A B} (r : exn + A) (k : A -> exn + B) : exn + B :=
  match r with
  | inl e => inl e
  | inr a => k a
  end.

Definition index_value {A} (xs : list A) (i : nat) : exn + A :=
  match xs !! i with
  | Some x => inr x
  | None => inl IndexError
  end.

Section Values.
Context {cloud : Type} {lib : Cupoch cloud}.

(** The cloud that the drawing helper hands to the renderer for the source
    [cs] and the transformation [T]. *)
Definition drawn_value (cs : cloud) (T : matrix) : exn + cloud :=
  transform cs (astype_float32 T).

(** The result of the pass for [scale] on the clouds [cs] and [ct], seeded
    with [seed]. *)
Definition level_value (cs ct : cloud) (scale : nat) (seed : matrix) :
    exn + RegistrationResult :=
  and_then (index_value max_iter scale) (fun iter =>
  and_then (index_value voxel_radius scale) (fun radius =>
  let param := {| radius := (radius * 2)%float; max_nn := 30 |} in
  and_then (voxel_down_sample cs radius) (fun source_down =>
  and_then (voxel_down_sample ct radius) (fun target_down =>
  and_then (estimate_normals source_down param) (fun source_down =>
  and_then (estimate_normals target_down param) (fun target_down =>
  registration_colored_icp source_down target_down radius seed
    {| relative_fitness := 1e-6; relative_rmse := 1e-6; max_iteration := iter |})))))).

(** The loop state after the passes for [range]. *)
Fixpoint multi_scale_value (cs ct : cloud) (range : list nat) (st : loop_state) :
    exn + loop_state :=
  match range with
  | [] => inr st
  | scale :: range' =>
      and_then (level_value cs ct scale (fst st)) (fun result_icp =>
      multi_scale_value cs ct range' (transformation result_icp, result_icp))
  end.

(** How [__main__] ends. *)
Definition main_value : exn + unit :=
  and_then (read_point_cloud "../../testdata/colored_icp/frag_115.ply") (fun cs =>
  and_then (read_point_cloud "../../testdata/colored_icp/frag_116.ply") (fun ct =>
  and_then (drawn_value cs (np_identity 4)) (fun _ =>
  and_then (registration_icp cs ct 0.02 (np_identity 4)
              TransformationEstimationPointToPlane) (fun result_icp =>
  and_then (drawn_value cs (transformation result_icp)) (fun _ =>
  and_then (multi_scale_value cs ct (seq 0 3) (np_identity 4, result_icp)) (fun st =>
  and_then (drawn_value cs (transformation (snd st))) (fun _ =>
  inr tt))))))).

(** *** The calls, on references that are in the store *)

Lemma draw_geometries_valid xs (h : gmap loc cloud) :
  Forall (fun x => is_Some (h !! x)) xs ->
  draw_geometries xs h = Outcome (inr tt) h [EvDraw xs].
Proof.
  intros Hxs. unfold draw_geometries.
  set (check := fix check (ys : list loc) : M cloud unit :=
     match ys with [] => mret tt | y :: ys' => deref y;; check ys' end).
  assert (Hc : forall ys, Forall (fun x => is_Some (h !! x)) ys ->
            check ys h = Outcome (inr tt) h []).
  { induction ys as [|y ys IH]; [done|].
    intros [[c Hy] Hys]%Forall_cons. cbn [check].
    unfold mbind, M_bind, bind, deref. rewrite Hy. cbn.
    fold check. by rewrite IH. }
  unfold mbind, M_bind, bind. rewrite Hc by done. reflexivity.
Qed.

Lemma wp_do_voxel_down_sample_valid x v (h : gmap loc cloud) c (Q : post loc) :
  h !! x = Some c ->
  (forall e, voxel_down_sample c v = inl e -> Q (inl e) h []) ->
  (forall c' l, voxel_down_sample c v = inr c' -> h !! l = None ->
     Q (inr l) (<[l := c']> h) [EvDownsample x v l]) ->
  wp (do_voxel_down_sample x v) h Q.
Proof.
  intros Hx He Hs. unfold do_voxel_down_sample.
  apply wp_bind, wp_deref; [congruence|]. intros c0 [= <-]%(eq_trans (eq_sym Hx)).
  wp_steps; eauto.
Qed.

Lemma wp_do_estimate_normals_valid x p (h : gmap loc cloud) c (Q : post unit) :
  h !! x = Some c ->
  (forall e, estimate_normals c p = inl e -> Q (inl e) h [EvEstimateNormals x p]) ->
  (forall c', estimate_normals c p = inr c' ->
     Q (inr tt) (<[x := c']> h) [EvEstimateNormals x p]) ->
  wp (do_estimate_normals x p) h Q.
Proof.
  intros Hx He Hs. apply wp_do_estimate_normals; [congruence| |].
  - intros c0 e [= <-]%(eq_trans (eq_sym Hx)). auto.
  - intros c0 c' [= <-]%(eq_trans (eq_sym Hx)). auto.
Qed.

Lemma wp_do_registration_icp_valid s t d init est (h : gmap loc cloud) cs ct
    (Q : post RegistrationResult) :
  h !! s = Some cs -> h !! t = Some ct ->
  (forall e, registration_icp cs ct d init est = inl e ->
     Q (inl e) h [EvICP s t d init est (inl e)]) ->
  (forall r, registration_icp cs ct d init est = inr r ->
     Q (inr r) h [EvICP s t d init est (inr r)]) ->
  wp (do_registration_icp s t d init est) h Q.
Proof.
  intros Hs Ht He Hr. unfold do_registration_icp.
  apply wp_bind, wp_deref; [congruence|]. intros ? [= <-]%(eq_trans (eq_sym Hs)).
  apply wp_bind, wp_deref; [congruence|]. intros ? [= <-]%(eq_trans (eq_sym Ht)).
  apply wp_bind, wp_emit. simpl. apply wp_lift; intros ? Heq; rewrite Heq; auto.
Qed.

Lemma wp_do_registration_colored_icp_valid s t d init crit (h : gmap loc cloud) cs ct
    (Q : post RegistrationResult) :
  h !! s = Some cs -> h !! t = Some ct ->
  (forall e, registration_colored_icp cs ct d init crit = inl e ->
     Q (inl e) h [EvColoredICP s t d init crit (inl e)]) ->
  (forall r, registration_colored_icp cs ct d init crit = inr r ->
     Q (inr r) h [EvColoredICP s t d init crit (inr r)]) ->
  wp (do_registration_colored_icp s t d init crit) h Q.
Proof.
  intros Hs Ht He Hr. unfold do_registration_colored_icp.
  apply wp_bind, wp_deref; [congruence|]. intros ? [= <-]%(eq_trans (eq_sym Hs)).
  apply wp_bind, wp_deref; [congruence|]. intros ? [= <-]%(eq_trans (eq_sym Ht)).
  apply wp_bind, wp_emit. simpl. apply wp_lift; intros ? Heq; rewrite Heq; auto.
Qed.

(** The drawing helper, on a source and a target that are in the store. *)
Lemma wp_draw_valid src tgt T (h : gmap loc cloud) cs ct (Q : post unit) :
  h !! src = Some cs -> h !! tgt = Some ct ->
  (forall l e, h !! l = None -> drawn_value cs T = inl e ->
     Q (inl e) (<[l := cs]> h) [EvDeepcopy src l; EvTransform l (astype_float32 T)]) ->
  (forall l c', h !! l = None -> drawn_value cs T = inr c' ->
     Q (inr tt) (<[l := c']> h) (draw_events src tgt T l)) ->
  wp (draw_registration_result_original_color src tgt T) h Q.
Proof.
  intros Hs Ht He Hr. unfold draw_registration_result_original_color.
  apply wp_bind, wp_deepcopy; [congruence|].
  intros c l [= <-]%(eq_trans (eq_sym Hs)) Hl. simpl.
  apply wp_bind, wp_do_transform.
  - rewrite lookup_insert_eq. done.
  - rewrite lookup_insert_eq. intros ? e [= <-] Htr. by apply He.
  - rewrite lookup_insert_eq. intros ? c' [= <-] Htr. simpl.
    rewrite insert_insert_eq. unfold wp.
    rewrite draw_geometries_valid.
    + by apply Hr.
    + assert (l <> tgt) by congruence.
      repeat constructor; [rewrite lookup_insert_eq|rewrite lookup_insert_ne]; eauto.
Qed.

(** *** Objects that a run leaves as they were *)

(** Every object of [h] has the same value in [h']. *)
Definition kept (h h' : gmap loc cloud) : Prop :=
  forall x, is_Some (h !! x) -> h' !! x = h !! x.

Lemma kept_refl (h : gmap loc cloud) : kept h h.
Proof. by intros x _. Qed.

Lemma kept_trans (h1 h2 h3 : gmap loc cloud) : kept h1 h2 -> kept h2 h3 -> kept h1 h3.
Proof.
  intros H12 H23 x Hx. rewrite H23, H12; [done|done|]. by rewrite H12.
Qed.

Lemma kept_insert_new (h : gmap loc cloud) l c : h !! l = None -> kept h (<[l := c]> h).
Proof.
  intros Hl x [cx Hx]. rewrite lookup_insert_ne; [done|]. congruence.
Qed.

Lemma kept_lookup (h h' : gmap loc cloud) x c : kept h h' -> h !! x = Some c -> h' !! x = Some c.
Proof. intros Hk Hx. rewrite Hk; eauto. Qed.

(** The results that a trace prints, oldest first. *)
Definition printed_results (es : list event) : list RegistrationResult :=
  omap (fun e => match e with EvPrint (PResult r) => Some r | _ => None end) es.

(** The results of the passes for [range] that return, up to the first
    that raises. *)
Fixpoint multi_scale_results (cs ct : cloud) (range : list nat) (seed : matrix) :
    list RegistrationResult :=
  match range with
  | [] => []
  | scale :: range' =>
      match level_value cs ct scale seed with
      | inl _ => []
      | inr r => r :: multi_scale_results cs ct range' (transformation r)
      end
  end.

Lemma wp_level_value src tgt scale (st : loop_state) (h : gmap loc cloud) cs ct :
  h !! src = Some cs -> h !! tgt = Some ct ->
  wp (level src tgt scale st) h (fun v h' es =>
    v = and_then (level_value cs ct scale (fst st))
                 (fun r => inr (transformation r, r)) /\
    kept h h' /\
    printed_results es =
      match level_value cs ct scale (fst st) with inr r => [r] | inl _ => [] end).
Proof.
  intros Hs Ht. unfold level, level_value, index_value.
  apply wp_bind, wp_index; [intros ->; by split; [|split; [apply kept_refl|]]|].
  intros it ->. cbn [and_then].
  apply wp_bind, wp_index; [intros ->; by split; [|split; [apply kept_refl|]]|].
  intros r ->. cbn [and_then].
  apply wp_bind, wp_print. apply wp_bind, wp_print. simpl.
  apply wp_bind. apply (wp_do_voxel_down_sample_valid src r h cs); [done| |].
  { intros e ->. by split; [|split; [apply kept_refl|]]. }
  intros dsd sd -> Hsd. simpl.
  assert (sd <> src) by congruence. assert (sd <> tgt) by congruence.
  apply wp_bind. apply (wp_do_voxel_down_sample_valid tgt r _ ct);
    [by rewrite lookup_insert_ne| |].
  { intros e ->. split; [done|]. split; [by apply kept_insert_new|done]. }
  intros dtd td -> Htd. simpl.
  assert (td <> sd) by (intros ->; by rewrite lookup_insert_eq in Htd).
  assert (h !! td = None) by (by rewrite lookup_insert_ne in Htd).
  assert (td <> src) by congruence. assert (td <> tgt) by congruence.
  assert (Hkept : forall h' : gmap loc cloud,
            (forall x, x <> sd -> x <> td -> h' !! x = h !! x) -> kept h h').
  { intros h' Hh' x [cx Hx]. apply Hh'; congruence. }
  apply wp_bind, wp_print. simpl.
  apply wp_bind. apply (wp_do_estimate_normals_valid sd _ _ dsd);
    [rewrite lookup_insert_ne by done; by rewrite lookup_insert_eq| |].
  { intros e ->. split; [done|]. split; [|done].
    apply Hkept. intros x ? ?. by rewrite !lookup_insert_ne. }
  intros nsd ->. simpl.
  apply wp_bind. apply (wp_do_estimate_normals_valid td _ _ dtd).
  { rewrite lookup_insert_ne by done. by rewrite lookup_insert_eq. }
  { intros e ->. split; [done|]. split; [|done].
    apply Hkept. intros x ? ?. by rewrite !lookup_insert_ne. }
  intros ntd ->. simpl.
  apply wp_bind, wp_print. simpl.
  apply wp_bind. apply (wp_do_registration_colored_icp_valid sd td _ _ _ _ nsd ntd).
  { rewrite lookup_insert_ne by done. by rewrite lookup_insert_eq. }
  { by rewrite lookup_insert_eq. }
  { intros e ->. split; [done|]. split; [|done].
    apply Hkept. intros x ? ?. by rewrite !lookup_insert_ne. }
  intros rr ->. simpl.
  apply wp_bind, wp_print. simpl. apply wp_ret.
  split; [done|]. split; [|done].
  apply Hkept. intros x ? ?. by rewrite !lookup_insert_ne.
Qed.

Lemma wp_multi_scale_value src tgt range (st : loop_state) (h : gmap loc cloud) cs ct :
  h !! src = Some cs -> h !! tgt = Some ct ->
  wp (for_range range (level src tgt) st) h (fun v h' es =>
    v = multi_scale_value cs ct range st /\
    kept h h' /\
    printed_results es = multi_scale_results cs ct range (fst st)).
Proof.
  revert st h. induction range as [|scale range IH]; intros st h Hs Ht; simpl.
  - apply wp_ret. split; [done|]. split; [apply kept_refl|done].
  - apply wp_bind. eapply wp_mono; [by apply (wp_level_value src tgt scale st h cs ct)|].
    simpl. intros v h' es (-> & Hk & Hp).
    destruct (level_value cs ct scale st.1) as [e|rr]; simpl; [done|].
    eapply wp_mono; [apply IH; by eapply kept_lookup|]. simpl.
    intros v' h'' es' (-> & Hk' & Hp'). split; [done|]. split; [by eapply kept_trans|].
    unfold printed_results in *. by rewrite omap_app, Hp, Hp'.
Qed.

(** The run of [__main__] from the store [h]: how it ends, what it leaves
    in the store, and what it prints. *)
Definition main_value_post (h : gmap loc cloud) : @post cloud unit := fun v h' es =>
  let frag_115 := "../../testdata/colored_icp/frag_115.ply" in
  let frag_116 := "../../testdata/colored_icp/frag_116.ply" in
  v = main_value /\
  kept h h' /\
  (forall cs, read_point_cloud frag_115 = inr cs ->
     exists s, h !! s = None /\ EvRead frag_115 s ∈ es /\ h' !! s = Some cs) /\
  (forall cs ct, read_point_cloud frag_115 = inr cs -> read_point_cloud frag_116 = inr ct ->
     exists t, h !! t = None /\ EvRead frag_116 t ∈ es /\ h' !! t = Some ct) /\
  (forall u, v = inr u ->
     exists cs ct r0,
       read_point_cloud frag_115 = inr cs /\
       read_point_cloud frag_116 = inr ct /\
       registration_icp cs ct 0.02 (np_identity 4)
         TransformationEstimationPointToPlane = inr r0 /\
       printed_results es = r0 :: multi_scale_results cs ct (seq 0 3) (np_identity 4)).

(** *** The library calls of a run *)

(** The five library calls of a pass with voxel size [v] and iteration
    count [iter] on the clouds [cs] and [ct], seeded with [seed], return,
    the last of them with [r]. *)
Definition pass_returns (cs ct : cloud) (v : float) (iter : Z) (seed : matrix)
    (r : RegistrationResult) : Prop :=
  let param := {| radius := (v * 2)%float; max_nn := 30 |} in
  exists source_down target_down source_normals target_normals,
    voxel_down_sample cs v = inr source_down /\
    voxel_down_sample ct v = inr target_down /\
    estimate_normals source_down param = inr source_normals /\
    estimate_normals target_down param = inr target_normals /\
    registration_colored_icp source_normals target_normals v seed
      {| relative_fitness := 1e-6; relative_rmse := 1e-6; max_iteration := iter |}
      = inr r.

(** Every library call that the script makes returns: the two reads, the
    transform of each of the three drawings, the point-to-plane solve, and
    the calls of the three passes, each on the arguments that the calls
    before it give it. *)
Definition calls_return : Prop :=
  exists cs ct r0 r1 r2 r3,
    read_point_cloud "../../testdata/colored_icp/frag_115.ply" = inr cs /\
    read_point_cloud "../../testdata/colored_icp/frag_116.ply" = inr ct /\
    (exists c, transform cs (astype_float32 (np_identity 4)) = inr c) /\
    registration_icp cs ct 0.02 (np_identity 4)
      TransformationEstimationPointToPlane = inr r0 /\
    (exists c, transform cs (astype_float32 (transformation r0)) = inr c) /\
    pass_returns cs ct 0.04 50 (np_identity 4) r1 /\
    pass_returns cs ct 0.02 30 (transformation r1) r2 /\
    pass_returns cs ct 0.01 14 (transformation r2) r3 /\
    (exists c, transform cs (astype_float32 (transformation r3)) = inr c).

(** Some call of the library raises [e]. *)
Definition library_raises (e : exn) : Prop :=
  (exists path, read_point_cloud path = inl e) \/
  (exists c v, voxel_down_sample c v = inl e) \/
  (exists c p, estimate_normals c p = inl e) \/
  (exists c m, transform c m = inl e) \/
  (exists cs ct d init est, registration_icp cs ct d init est = inl e) \/
  (exists cs ct d init crit, registration_colored_icp cs ct d init crit = inl e).

(** A pass returns exactly when its two list lookups are in range and its
    library calls return. *)
Lemma level_value_inr cs ct scale seed r :
  level_value cs ct scale seed = inr r <->
  exists iter v,
    max_iter !! scale = Some iter /\ voxel_radius !! scale = Some v /\
    pass_returns cs ct v iter seed r.
Proof.
  unfold level_value, index_value, pass_returns. split.
  - destruct (max_iter !! scale) as [iter|]; [|done].
    destruct (voxel_radius !! scale) as [v|]; [|done]. cbn [and_then].
    destruct (voxel_down_sample cs v) as [|sd] eqn:Hsd; [done|].
    destruct (voxel_down_sample ct v) as [|td] eqn:Htd; [done|]. cbn [and_then].
    destruct (estimate_normals sd _) as [|sn] eqn:Hsn; [done|].
    destruct (estimate_normals td _) as [|tn] eqn:Htn; [done|]. cbn [and_then].
    intros Hr. exists iter, v. split; [done|]. split; [done|].
    by exists sd, td, sn, tn.
  - intros (iter & v & -> & -> & sd & td & sn & tn & Hsd & Htd & Hsn & Htn & Hr).
    cbn [and_then]. rewrite Hsd, Htd. cbn [and_then]. rewrite Hsn, Htn. done.
Qed.

(** The exception of a pass of the loop is that of one of its library
    calls: the lookups of the three passes are in range. *)
Lemma level_value_inl cs ct scale seed e :
  (scale < 3)%nat -> level_value cs ct scale seed = inl e -> library_raises e.
Proof.
  intros Hscale. unfold level_value, index_value, library_raises.
  destruct (max_iter !! scale) as [iter|] eqn:Hi;
    [|destruct scale as [|[|[|scale]]]; [done|done|done|lia]].
  destruct (voxel_radius !! scale) as [v|] eqn:Hv;
    [|destruct scale as [|[|[|scale]]]; [done|done|done|lia]].
  cbn [and_then].
  destruct (voxel_down_sample cs v) as [|sd] eqn:Hsd;
    [intros [= <-]; right; left; eauto|].
  destruct (voxel_down_sample ct v) as [|td] eqn:Htd;
    [intros [= <-]; right; left; eauto|]. cbn [and_then].
  destruct (estimate_normals sd _) as [|sn] eqn:Hsn;
    [intros [= <-]; right; right; left; eauto|].
  destruct (estimate_normals td _) as [|tn] eqn:Htn;
    [intros [= <-]; right; right; left; eauto|]. cbn [and_then].
  intros Hr. do 5 right. eauto 10.
Qed.

Local Arguments multi_scale_value : simpl never.
Local Arguments multi_scale_results : simpl never.

Lemma wp_main_value (h : gmap loc cloud) : wp main h (main_value_post h).
Proof.
  unfold main, main_value_post, main_value. cbv zeta.
  apply wp_bind, wp_print. simpl.
  apply wp_bind, wp_io_read_point_cloud.
  { intros e He. rewrite He. split; [done|]. split; [apply kept_refl|].
    split; [congruence|]. split; [congruence|done]. }
  intros cs s Hcs Hs. rewrite Hcs. cbn [and_then]. simpl.
  apply wp_bind, wp_io_read_point_cloud.
  { intros e He. rewrite He. split; [done|]. split; [by apply kept_insert_new|].
    split; [|split; [congruence|done]].
    intros ? [= <-]. exists s. rewrite lookup_insert_eq, !elem_of_cons. auto. }
  intros ct t Hct Ht. rewrite Hct. cbn [and_then]. simpl.
  assert (t <> s) by (intros ->; by rewrite lookup_insert_eq in Ht).
  assert (Hht : h !! t = None) by (by rewrite lookup_insert_ne in Ht).
  set (h2 := <[t := ct]> (<[s := cs]> h)).
  assert (Hs2 : h2 !! s = Some cs)
    by (unfold h2; rewrite lookup_insert_ne by done; by rewrite lookup_insert_eq).
  assert (Ht2 : h2 !! t = Some ct) by (unfold h2; by rewrite lookup_insert_eq).
  assert (Hk2 : kept h h2).
  { intros x [cx Hx]. unfold h2. rewrite !lookup_insert_ne; congruence. }
  assert (Hleaf : forall h' (es : list event),
            kept h2 h' ->
            EvRead "../../testdata/colored_icp/frag_115.ply" s ∈ es ->
            EvRead "../../testdata/colored_icp/frag_116.ply" t ∈ es ->
            kept h h' /\
            (forall cs0, @inr exn cloud cs = inr cs0 ->
               exists s0, h !! s0 = None /\
                 EvRead "../../testdata/colored_icp/frag_115.ply" s0 ∈ es /\
                 h' !! s0 = Some cs0) /\
            (forall cs0 ct0, @inr exn cloud cs = inr cs0 -> @inr exn cloud ct = inr ct0 ->
               exists t0, h !! t0 = None /\
                 EvRead "../../testdata/colored_icp/frag_116.ply" t0 ∈ es /\
                 h' !! t0 = Some ct0)).
  { intros h' es Hk Hin1 Hin2. split; [by eapply kept_trans|]. split.
    - intros ? [= <-]. exists s. split; [done|]. split; [done|]. by eapply kept_lookup.
    - intros ? ? [= <-] [= <-]. exists t. split; [done|]. split; [done|].
      by eapply kept_lookup. }
  assert (Hfail : forall e h' (es : list event) (P : unit -> Prop),
            kept h2 h' ->
            EvRead "../../testdata/colored_icp/frag_115.ply" s ∈ es ->
            EvRead "../../testdata/colored_icp/frag_116.ply" t ∈ es ->
            kept h h' /\
            (forall cs0, @inr exn cloud cs = inr cs0 ->
               exists s0, h !! s0 = None /\
                 EvRead "../../testdata/colored_icp/frag_115.ply" s0 ∈ es /\
                 h' !! s0 = Some cs0) /\
            (forall cs0 ct0, @inr exn cloud cs = inr cs0 -> @inr exn cloud ct = inr ct0 ->
               exists t0, h !! t0 = None /\
                 EvRead "../../testdata/colored_icp/frag_116.ply" t0 ∈ es /\
                 h' !! t0 = Some ct0) /\
            (forall u : unit, @inl exn unit e = inr u -> P u)).
  { intros e h' es P Hk Hin1 Hin2.
    destruct (Hleaf h' es Hk Hin1 Hin2) as (? & ? & ?). by repeat split. }
  clearbody h2.
  apply wp_bind. apply (wp_draw_valid s t _ h2 cs ct); [done|done| |].
  { intros l e Hl He. rewrite He. split; [done|].
    apply Hfail; [by apply kept_insert_new|by repeat constructor|by repeat constructor]. }
  intros l0 c0 Hl0 Hd0. rewrite Hd0. cbn [and_then]. simpl.
  assert (Hk3 : kept h2 (<[l0 := c0]> h2)) by by apply kept_insert_new.
  set (h3 := <[l0 := c0]> h2) in *. clearbody h3.
  apply wp_bind, wp_print. apply wp_bind, wp_print. simpl.
  apply wp_bind.
  apply (wp_do_registration_icp_valid s t _ _ _ h3 cs ct);
    [by eapply kept_lookup|by eapply kept_lookup| |].
  { intros e He. rewrite He. split; [done|].
    apply Hfail; [done|by repeat constructor|by repeat constructor]. }
  intros r0 Hr0. rewrite Hr0. cbn [and_then]. simpl.
  apply wp_bind, wp_print. simpl.
  apply wp_bind.
  apply (wp_draw_valid s t _ h3 cs ct); [by eapply kept_lookup|by eapply kept_lookup| |].
  { intros l e Hl He. rewrite He. split; [done|].
    apply Hfail; [|by repeat constructor|by repeat constructor].
    eapply kept_trans; [done|by apply kept_insert_new]. }
  intros l1 c1 Hl1 Hd1. rewrite Hd1. cbn [and_then]. simpl.
  assert (Hk4 : kept h2 (<[l1 := c1]> h3))
    by (eapply kept_trans; [done|by apply kept_insert_new]).
  set (h4 := <[l1 := c1]> h3) in *. clearbody h4.
  apply wp_bind, wp_print. simpl.
  apply wp_bind. unfold multi_scale.
  eapply wp_mono;
    [apply (wp_multi_scale_value s t (seq 0 3) (np_identity 4, r0) h4 cs ct);
       by eapply kept_lookup|].
  cbv beta. intros v h5 es5 (-> & Hk5 & Hp5).
  assert (Hk25 : kept h2 h5) by by eapply kept_trans.
  change (seq 0 3) with [0; 1; 2] in *.
  destruct (multi_scale_value cs ct [0; 1; 2] (np_identity 4, r0)) as [e|st'] eqn:Hms;
    cbn [and_then]; cbv beta iota.
  { split; [done|]. apply Hfail; [done|by repeat constructor|by repeat constructor]. }
  apply (wp_draw_valid s t _ h5 cs ct); [by eapply kept_lookup|by eapply kept_lookup| |].
  { intros l e Hl He. rewrite He. split; [done|].
    apply Hfail; [|by repeat constructor|by repeat constructor].
    eapply kept_trans; [done|by apply kept_insert_new]. }
  intros l2 c2 Hl2 Hd2. rewrite Hd2. cbn [and_then]. split; [done|].
  match goal with
  | |- _ /\ (forall cs0, _ -> exists s0, _ /\ _ ∈ ?es /\ _) /\ _ =>
      destruct (Hleaf (<[l2 := c2]> h5) es) as (? & ? & ?);
        [eapply kept_trans; [done|by apply kept_insert_new]
        |by repeat constructor|by repeat constructor|]
  end.
  split; [done|]. split; [done|]. split; [done|].
  intros _ _. exists cs, ct, r0. split; [done|]. split; [done|]. split; [done|].
  f_equal. unfold printed_results in *. rewrite omap_app, Hp5.
  cbn. by rewrite app_nil_r.
Qed.

End Values.

End Script.

(* ===================================================================== *)
(** * Part II: the registration core                                      *)
(* ===================================================================== *)

(** The library that the script calls is not part of the example; its
    components are modelled here from the design document (sections 3 to
    7), with exact rational arithmetic in place of floating point.  What
    the document leaves to the implementation, or what the rationals do
    not have, is a field of the class [Numerics]. *)

Module Core.

Local Open Scope Qc_scope.

(** ** Vectors *)

Definition vec3 : Type := Qc * Qc * Qc.

Definition vx (p : vec3) : Qc := p.1.1.
Definition vy (p : vec3) : Qc := p.1.2.
Definition vz (p : vec3) : Qc := p.2.

Definition vzero : vec3 := (0, 0, 0).
Definition vadd (a b : vec3) : vec3 := (vx a + vx b, vy a + vy b, vz a + vz b).
Definition vsub (a b : vec3) : vec3 := (vx a - vx b, vy a - vy b, vz a - vz b).
Definition vscale (k : Qc) (a : vec3) : vec3 := (k * vx a, k * vy a, k * vz a).
Definition dot (a b : vec3) : Qc := vx a * vx b + vy a * vy b + vz a * vz b.
Definition cross (a b : vec3) : vec3 :=
  (vy a * vz b - vz a * vy b, vz a * vx b - vx a * vz b, vx a * vy b - vy a * vx b).

Definition Qc_of_nat (n : nat) : Qc := Qc_of_Z (Z.of_nat n).

Definition vsum (l : list vec3) : vec3 := foldr vadd vzero l.

(** The arithmetic mean of a list of vectors. *)
Definition vmean (l : list vec3) : vec3 := vscale (/ Qc_of_nat (length l)) (vsum l).

Definition Qcmin (x y : Qc) : Qc := if decide (x ≤ y) then x else y.
Definition Qcmax (x y : Qc) : Qc := if decide (x ≤ y) then y else x.
Definition Qcabs (x : Qc) : Qc := if decide (0 ≤ x) then x else - x.

Definition vmin (a b : vec3) : vec3 := (Qcmin (vx a) (vx b), Qcmin (vy a) (vy b), Qcmin (vz a) (vz b)).
Definition vmax (a b : vec3) : vec3 := (Qcmax (vx a) (vx b), Qcmax (vy a) (vy b), Qcmax (vz a) (vz b)).

(** Componentwise order. *)
Definition vle (a b : vec3) : Prop := vx a ≤ vx b /\ vy a ≤ vy b /\ vz a ≤ vz b.

(** ** What is left to the implementation *)

(** ** Point clouds (section 3) *)

Record PointCloud := {
  points : list vec3;
  normals : option (list vec3);
  colors : option (list vec3);
}.

(** A rigid motion: the rows of the rotation block and the translation
    column of the 4x4 homogeneous matrix, whose last row is (0,0,0,1). *)
Record Transformation := {
  rotation : vec3 * vec3 * vec3;
  translation : vec3;
}.

(** ** What is left to the implementation

    Operations that the design document names without fixing them, or that
    need real numbers. *)
Class Numerics := {
  (** square root, for norms and the RMSE *)
  sqrt : Qc -> Qc;
  (** the solver of the 6x6 normal equations (Cholesky or equivalent) *)
  solve6 : list (list Qc) -> list Qc -> list Qc;
  (** re-orthonormalization of a rotation block *)
  orthonormalize : vec3 * vec3 * vec3 -> vec3 * vec3 * vec3;
  (** the closed-form fit of corresponded points (singular-value
      decomposition of the cross-covariance, with reflection correction) *)
  rigid_fit : list (vec3 * vec3) -> Transformation;
  (** the color term of a correspondence between a source point and a
      target point, given by their indices: the rotation and translation
      parts of its Jacobian row, and its residual *)
  photometric : PointCloud -> PointCloud -> nat -> nat -> vec3 * vec3 * Qc;
}.

Definition size (c : PointCloud) : nat := length (points c).

(** If normals or colors are present, their count equals the point count. *)
Definition well_formed (c : PointCloud) : Prop :=
  (forall ns, normals c = Some ns -> length ns = size c) /\
  (forall cs, colors c = Some cs -> length cs = size c).

(** Corners of the bounding box of a non-empty list of points. *)
Definition min_bound (l : list vec3) : vec3 :=
  match l with [] => vzero | p :: l' => foldr vmin p l' end.
Definition max_bound (l : list vec3) : vec3 :=
  match l with [] => vzero | p :: l' => foldr vmax p l' end.

(** The error kinds of section 7.  Section 4.5 calls the failure of the
    point-to-plane estimator on a target without normals [MissingNormals];
    sections 7 and 8 call it [MissingAttribute], which is the kind kept
    here. *)
Inductive error :=
| InvalidArgument
| MissingAttribute
| NoCorrespondences
| DegenerateNormal.

(** ** Voxel down-sampling (section 4.1) *)

(** The cube of edge [v] that holds [p], by its integer coordinates. *)
Definition voxel : Type := Z * Z * Z.

Definition Qcfloor (x : Qc) : Z := Qfloor x.

Definition voxel_of (v : Qc) (p : vec3) : voxel :=
  (Qcfloor (vx p / v), Qcfloor (vy p / v), Qcfloor (vz p / v)).

(** [p] lies in the cube [k] of edge [v]. *)
Definition in_cube (v : Qc) (k : voxel) (p : vec3) : Prop :=
  (Qc_of_Z k.1.1 * v ≤ vx p /\ vx p < (Qc_of_Z k.1.1 + 1) * v) /\
  (Qc_of_Z k.1.2 * v ≤ vy p /\ vy p < (Qc_of_Z k.1.2 + 1) * v) /\
  (Qc_of_Z k.2 * v ≤ vz p /\ vz p < (Qc_of_Z k.2 + 1) * v).

(** Bins in the order in which their cubes are first met; a bin keeps its
    members in input order. *)
Fixpoint insert_bin {A} (k : voxel) (a : A) (bins : list (voxel * list A)) :
    list (voxel * list A) :=
  match bins with
  | [] => [(k, [a])]
  | (k', l) :: rest =>
      if decide (k = k') then (k', l ++ [a]) :: rest
      else (k', l) :: insert_bin k a rest
  end.

Definition bin_by {A} (keys : list voxel) (vals : list A) : list (voxel * list A) :=
  fold_left (fun bins ka => insert_bin ka.1 ka.2 bins) (zip keys vals) [].

(** The members of cube [k] among keyed values, in input order, and the
    bin of [k] in a list of bins. *)
Definition members {A} (k : voxel) (kvs : list (voxel * A)) : list A :=
  (filter (fun kv => kv.1 = k) kvs).*2.

Fixpoint get_bin {A} (k : voxel) (bins : list (voxel * list A)) : list A :=
  match bins with
  | [] => []
  | (k', l) :: rest => if decide (k = k') then l else get_bin k rest
  end.

(** The clouds of a run, as objects that own their buffers (section 3). *)
Abbreviation objects := (gmap positive PointCloud).

Section WithNumerics.
Context {num : Numerics}.

Definition normalize (a : vec3) : vec3 := vscale (/ sqrt (dot a a)) a.

(** Modelled from the spec: [downsample(cloud, voxelSize)] of the library's
    VoxelDownsampler (section 4.1), whose code is not in the example.  It
    fails with [InvalidArgument] if the voxel size is not positive;
    otherwise each non-empty cube gives one output point, the arithmetic
    mean of the positions it contains, with the mean of their normals
    re-normalized and the mean of their colors when present.  The input is
    a value: nothing is changed in place. *)
Definition downsample (cloud : PointCloud) (voxelSize : Qc) : error + PointCloud :=
  if decide (voxelSize ≤ 0) then inl InvalidArgument
  else
    let keys := map (voxel_of voxelSize) (points cloud) in
    inr {| points := map (fun b => vmean b.2) (bin_by keys (points cloud));
           normals := (fun ns => map (fun b => normalize (vmean b.2)) (bin_by keys ns))
                        <$> normals cloud;
           colors := (fun cs => map (fun b => vmean b.2) (bin_by keys cs))
                        <$> colors cloud |}.


End WithNumerics.

(** ** Transformations *)

Definition identity : Transformation :=
  {| rotation := ((1, 0, 0), (0, 1, 0), (0, 0, 1)); translation := vzero |}.

Definition mat_vec (R : vec3 * vec3 * vec3) (p : vec3) : vec3 :=
  (dot R.1.1 p, dot R.1.2 p, dot R.2 p).

Definition transpose (R : vec3 * vec3 * vec3) : vec3 * vec3 * vec3 :=
  ((vx R.1.1, vx R.1.2, vx R.2), (vy R.1.1, vy R.1.2, vy R.2), (vz R.1.1, vz R.1.2, vz R.2)).

Definition mat_mul (R S : vec3 * vec3 * vec3) : vec3 * vec3 * vec3 :=
  let St := transpose S in (mat_vec St R.1.1, mat_vec St R.1.2, mat_vec St R.2).

Definition apply (T : Transformation) (p : vec3) : vec3 :=
  vadd (mat_vec (rotation T) p) (translation T).

(** [compose A B] is [B] followed by [A]. *)
Definition compose (A B : Transformation) : Transformation :=
  {| rotation := mat_mul (rotation A) (rotation B);
     translation := vadd (mat_vec (rotation A) (translation B)) (translation A) |}.

(** A transformed copy of a cloud: positions move, normals turn, colors
    stay. *)
Definition transform_cloud (T : Transformation) (c : PointCloud) : PointCloud :=
  {| points := map (apply T) (points c);
     normals := map (mat_vec (rotation T)) <$> normals c;
     colors := colors c |}.

(** ** Spatial index and correspondences (sections 4.2 and 4.4) *)

(** The index answers as a brute-force search over the points it was built
    on does; it is modelled by those points. *)
Record SpatialIndex := { indexed : list vec3 }.

Definition build (pts : list vec3) : SpatialIndex := {| indexed := pts |}.

Definition sq_dist (a b : vec3) : Qc := dot (vsub a b) (vsub a b).

Fixpoint nearest_from (q : vec3) (i : nat) (pts : list vec3) (best : option (nat * Qc)) :
    option (nat * Qc) :=
  match pts with
  | [] => best
  | p :: pts' =>
      let d := sq_dist q p in
      let best' :=
        match best with
        | Some (j, dj) => if decide (d < dj) then Some (i, d) else best
        | None => Some (i, d)
        end in
      nearest_from q (S i) pts' best'
  end.

Definition nearestOne (idx : SpatialIndex) (q : vec3) : option (nat * Qc) :=
  nearest_from q 0 (indexed idx) None.

Record Correspondence := {
  source_index : nat;
  target_index : nat;
  squared_distance : Qc;
}.

Global Instance Correspondence_eq_dec : EqDecision Correspondence.
Proof. solve_decision. Defined.

(** Modelled from the spec: the acceptance test of section 4.4, on the
    answer of [nearestOne] for source point [i] at position [p]. *)
Definition accept (targetIndex : SpatialIndex) (maxDistance : Qc) (i : nat) (p : vec3) :
    option Correspondence :=
  match nearestOne targetIndex p with
  | Some (j, d) =>
      if decide (d ≤ maxDistance * maxDistance)
      then Some {| source_index := i; target_index := j; squared_distance := d |}
      else None
  | None => None
  end.

(** Modelled from the spec: [findCorrespondences] of the library's
    CorrespondenceFinder (section 4.4), whose code is not in the example.
    Each point of the transformed source is matched with its nearest target
    point if the squared distance is at most [maxDistance] squared; a point
    without an accepted match contributes nothing; the output follows the
    order of the source points. *)
Definition findCorrespondences (sourceTransformed target : PointCloud)
    (targetIndex : SpatialIndex) (maxDistance : Qc) : list Correspondence :=
  omap id (imap (accept targetIndex maxDistance) (points sourceTransformed)).

(** Source point [i] has an accepted match. *)
Definition matched (sourceTransformed : PointCloud) (targetIndex : SpatialIndex)
    (maxDistance : Qc) (i : nat) : Prop :=
  is_Some (points sourceTransformed !! i ≫= accept targetIndex maxDistance i).

Global Instance matched_dec s idx d i : Decision (matched s idx d i).
Proof. unfold matched. apply _. Defined.

(** ** Transformation estimators (section 4.5) *)

Inductive Estimator :=
| PointToPoint
| PointToPlane
| ColoredICP (lambda_geometric : Qc).

(** Modelled from the spec: the weight of the photometric term of the
    colored variant (section 4.5): one coefficient balances the two terms,
    0.968 geometric against 0.032 photometric by default. *)
Definition photometric_weight (lambda_geometric : Qc) : Qc := 1 - lambda_geometric.

(** The value the cited publication tuned. *)
Definition default_lambda_geometric : Qc := Q2Qc (968 # 1000).

Definition has_normals (c : PointCloud) : bool := bool_decide (is_Some (normals c)).
Definition has_colors (c : PointCloud) : bool := bool_decide (is_Some (colors c)).

(** Modelled from the spec: the attributes a variant requires (section
    4.5): target normals for the point-to-plane variant, normals and colors
    on source and target for the colored variant. *)
Definition requires (est : Estimator) (source target : PointCloud) : bool :=
  match est with
  | PointToPoint => true
  | PointToPlane => has_normals target
  | ColoredICP _ =>
      has_normals source && has_colors source && has_normals target && has_colors target
  end.

Definition point (c : PointCloud) (i : nat) : vec3 := nth i (points c) vzero.
Definition normal (c : PointCloud) (i : nat) : vec3 :=
  nth i (default [] (normals c)) vzero.

(** A normal of zero marks a point with too few neighbours; it is left out
    of plane-based residuals. *)
Definition plane_usable (target : PointCloud) (c : Correspondence) : bool :=
  bool_decide (normal target (target_index c) <> vzero).

(** The normal equations of a linearized least-squares problem in the six
    variables of a small motion (rotation, then translation). *)
Record System := {
  JTJ : list (list Qc);
  JTr : list Qc;
  squared_residual : Qc;
}.

Definition row6 (a b : vec3) : list Qc := [vx a; vy a; vz a; vx b; vy b; vz b].

Definition empty_system : System :=
  {| JTJ := replicate 6 (replicate 6 0); JTr := replicate 6 0; squared_residual := 0 |}.

(** The system of one residual [r] with Jacobian row [J]. *)
Definition row_system (J : list Qc) (r : Qc) : System :=
  {| JTJ := map (fun a => map (fun b => a * b) J) J;
     JTr := map (fun a => a * r) J;
     squared_residual := r * r |}.

Definition scale_system (w : Qc) (s : System) : System :=
  {| JTJ := map (map (Qcmult w)) (JTJ s);
     JTr := map (Qcmult w) (JTr s);
     squared_residual := w * squared_residual s |}.

Definition add_system (s s' : System) : System :=
  {| JTJ := zip_with (zip_with Qcplus) (JTJ s) (JTJ s');
     JTr := zip_with Qcplus (JTr s) (JTr s');
     squared_residual := squared_residual s + squared_residual s' |}.

(** Modelled from the spec: the point-to-plane term of a correspondence
    (section 4.5): the distance of the source point to the plane of the
    target point and its normal, linearized by the small-angle
    approximation. *)
Definition geometric_term (source target : PointCloud) (c : Correspondence) : System :=
  let s := point source (source_index c) in
  let t := point target (target_index c) in
  let n := normal target (target_index c) in
  row_system (row6 (cross s n) n) (dot (vsub s t) n).

(** The small motion of a solution of the normal equations. *)
Definition small_motion (x : list Qc) : Transformation :=
  match x with
  | [a; b; c; tx; ty; tz] =>
      {| rotation := ((1, - c, b), (c, 1, - a), (- b, a, 1));
         translation := (tx, ty, tz) |}
  | _ => identity
  end.

Section Estimators.
Context {num : Numerics}.

Definition photometric_term (source target : PointCloud) (c : Correspondence) : System :=
  let '(jr, jt, r) := photometric source target (source_index c) (target_index c) in
  row_system (row6 jr jt) r.

(** Modelled from the spec: the term of one correspondence in the
    objective of a linearized variant (section 4.5).  The colored variant
    weighs the point-to-plane term by its coefficient and the color term by
    the photometric weight; the point-to-plane variant has the first term
    alone. *)
Definition term (est : Estimator) (source target : PointCloud) (c : Correspondence) : System :=
  match est with
  | ColoredICP lambda_geometric =>
      add_system
        (scale_system lambda_geometric (geometric_term source target c))
        (scale_system (photometric_weight lambda_geometric)
                      (photometric_term source target c))
  | _ => geometric_term source target c
  end.

Definition normal_equations (est : Estimator) (source target : PointCloud)
    (cs : list Correspondence) : System :=
  foldr add_system empty_system
        (map (term est source target) (filter (fun c => plane_usable target c) cs)).

Definition solve_motion (sys : System) : Transformation :=
  small_motion (solve6 (JTJ sys) (map Qcopp (JTr sys))).

Definition fitness_of (cs : list Correspondence) (source : PointCloud) : Qc :=
  Qc_of_nat (length cs) / Qc_of_nat (size source).

Definition rmse_of (total : Qc) (cs : list Correspondence) : Qc :=
  sqrt (total / Qc_of_nat (length cs)).

(** Modelled from the spec: what a variant computes on clouds that carry
    what it requires (section 4.5): the incremental transform, the fitness
    (accepted correspondences over source points) and the RMSE of the
    residual over the accepted correspondences. *)
Definition estimate (est : Estimator) (cs : list Correspondence)
    (source target : PointCloud) : Transformation * Qc * Qc :=
  match est with
  | PointToPoint =>
      let pairs := map (fun c => (point source (source_index c),
                                  point target (target_index c))) cs in
      let total := foldr Qcplus 0 (map (fun st => sq_dist st.1 st.2) pairs) in
      (rigid_fit pairs, fitness_of cs source, rmse_of total cs)
  | _ =>
      let sys := normal_equations est source target cs in
      (solve_motion sys, fitness_of cs source, rmse_of (squared_residual sys) cs)
  end.

(** Modelled from the spec: [estimateIncrement(correspondences, source,
    target)] of the library's TransformationEstimator (sections 4.5 and 7),
    whose code is not in the example.  A missing attribute is raised at the
    call boundary, before anything is computed. *)
Definition estimateIncrement (est : Estimator) (cs : list Correspondence)
    (source target : PointCloud) : error + Transformation * Qc * Qc :=
  if requires est source target then inr (estimate est cs source target)
  else inl MissingAttribute.

End Estimators.

(** ** The ICP solver (section 4.6) *)

Record ConvergenceCriteria := {
  relativeFitness : Qc;
  relativeRmse : Qc;
  maxIteration : Z;
}.

Record RegistrationResult := {
  transformation : Transformation;
  fitness : Qc;
  inlierRmse : Qc;
}.

(** The arguments of a solve. *)
Record Solve := {
  source : PointCloud;
  target : PointCloud;
  maxCorrespondenceDistance : Qc;
  initial : Transformation;
  estimator : Estimator;
  criteria : ConvergenceCriteria;
}.

(** The states of the solver.  [Iterating k T prev] is about to run
    iteration [k] from the cumulative transform [T]; [prev] is the fitness
    and RMSE of iteration [k - 1]. *)
Inductive SolverState :=
| Initializing
| Iterating (k : nat) (T : Transformation) (prev : option (Qc * Qc))
| Converged (r : RegistrationResult)
| MaxIterationsReached (r : RegistrationResult)
| Failed (e : error).

(** Modelled from the spec: the convergence test of step 5 of section 4.6:
    both differences are under their thresholds, after at least one prior
    iteration. *)
Definition converged (crit : ConvergenceCriteria) (prev : option (Qc * Qc)) (f r : Qc) : bool :=
  match prev with
  | Some (pf, pr) =>
      bool_decide (Qcabs (f - pf) < relativeFitness crit /\
                   Qcabs (r - pr) < relativeRmse crit)
  | None => false
  end.

Section Solver.
Context {num : Numerics}.

(** Modelled from the spec: steps 1 and 2 of an iteration of section 4.6,
    from the cumulative transform [T]. *)
Definition correspondences_at (call : Solve) (T : Transformation) : list Correspondence :=
  findCorrespondences (transform_cloud T (source call)) (target call)
    (build (points (target call))) (maxCorrespondenceDistance call).

(** Modelled from the spec: steps 3 and 4 of an iteration of section 4.6:
    the estimate on the correspondences, and the cumulative transform
    composed with the increment, its rotation block re-orthonormalized. *)
Definition iteration (call : Solve) (T : Transformation) : RegistrationResult :=
  let moved := transform_cloud T (source call) in
  let '(increment, f, r) :=
    estimate (estimator call) (correspondences_at call T) moved (target call) in
  let T' := compose increment T in
  {| transformation :=
       {| rotation := orthonormalize (rotation T'); translation := translation T' |};
     fitness := f;
     inlierRmse := r |}.

(** Modelled from the spec: one transition of the ICPSolver of the library
    (sections 4.6 and 7), whose code is not in the example.  The call is
    checked first (a negative iteration count is an [InvalidArgument], a
    missing attribute a [MissingAttribute]).  An iteration runs steps 1 to 4
    and then the check of step 5, so that it runs before the count is
    compared; iteration 0 without a correspondence is the one failure of
    the loop.  The count "reaches" [maxIteration] when it is at least
    [maxIteration]. *)
Definition step (call : Solve) (st : SolverState) : SolverState :=
  match st with
  | Initializing =>
      if decide (maxIteration (criteria call) < 0)%Z then Failed InvalidArgument
      else if requires (estimator call) (source call) (target call)
           then Iterating 0 (initial call) None
           else Failed MissingAttribute
  | Iterating k T prev =>
      if decide (k = 0%nat /\ correspondences_at call T = []) then Failed NoCorrespondences
      else
        let res := iteration call T in
        if converged (criteria call) prev (fitness res) (inlierRmse res)
        then Converged res
        else if decide (maxIteration (criteria call) <= Z.of_nat (S k))%Z
             then MaxIterationsReached res
             else Iterating (S k) (transformation res) (Some (fitness res, inlierRmse res))
  | _ => st
  end.

Fixpoint run (call : Solve) (steps : nat) (st : SolverState) : SolverState :=
  match steps with
  | O => st
  | S n => run call n (step call st)
  end.

(** Modelled from the spec: a solve of the ICPSolver, as the state in which
    it ends: the call is checked, then at most [maxIteration] iterations
    run (one, if [maxIteration] is zero). *)
Definition solve (call : Solve) : SolverState :=
  run call (S (S (Z.to_nat (maxIteration (criteria call))))) Initializing.

(** The states the solve passes through. *)
Definition reachable (call : Solve) (st : SolverState) : Prop :=
  exists n, run call n Initializing = st.

End Solver.

Definition terminal (st : SolverState) : bool :=
  match st with
  | Converged _ | MaxIterationsReached _ | Failed _ => true
  | Initializing | Iterating _ _ _ => false
  end.

(** ** An instance to compute with

    Rational stand-ins for the numerical operations: the square root is
    rounded down to six decimals, the normal equations are solved by
    Gauss-Jordan elimination, rotations are re-orthonormalized by the
    Gram-Schmidt process, the closed-form fit moves the centroid of the
    source points onto that of the target points, and the color term
    compares the mean color channels without a gradient. *)

Definition sqrt_down (q : Qc) : Qc :=
  Q2Qc (Z.sqrt (Qnum q * 10 ^ 12 / Zpos (Qden q)) # 10 ^ 6).

Definition eliminate (col : nat) (rows : list (list Qc)) : list (list Qc) :=
  match list_find (fun r => nth col r 0 <> 0) (drop col rows) with
  | None => rows
  | Some (i, pivot) =>
      let pivot := map (fun a => a / nth col pivot 0) pivot in
      let others := take col rows ++ delete i (drop col rows) in
      let reduce r := zip_with (fun a p => a - nth col r 0 * p) r pivot in
      let others := map reduce others in
      take col others ++ pivot :: drop col others
  end.

Definition gauss_jordan (A : list (list Qc)) (b : list Qc) : list Qc :=
  let augmented := zip_with (fun r bi => r ++ [bi]) A b in
  let reduced := foldl (fun rows col => eliminate col rows) augmented (seq 0 (length A)) in
  map (fun r => nth (length A) r 0) reduced.

Definition gram_schmidt (R : vec3 * vec3 * vec3) : vec3 * vec3 * vec3 :=
  let unit a := vscale (/ sqrt_down (dot a a)) a in
  let e1 := unit R.1.1 in
  let e2 := unit (vsub R.1.2 (vscale (dot R.1.2 e1) e1)) in
  let u3 := vsub (vsub R.2 (vscale (dot R.2 e1) e1)) (vscale (dot R.2 e2) e2) in
  (e1, e2, unit u3).

Definition centroid_fit (pairs : list (vec3 * vec3)) : Transformation :=
  {| rotation := rotation identity;
     translation := vsub (vmean (map snd pairs)) (vmean (map fst pairs)) |}.

Definition intensity (c : PointCloud) (i : nat) : Qc :=
  let rgb := nth i (default [] (colors c)) vzero in
  (vx rgb + vy rgb + vz rgb) / Qc_of_Z 3.

Definition rational_numerics : Numerics := {|
  sqrt := sqrt_down;
  solve6 := gauss_jordan;
  orthonormalize := gram_schmidt;
  rigid_fit := centroid_fit;
  photometric source target i j := (vzero, vzero, intensity source i - intensity target j);
|}.

(** A cloud of nine colored points on three planes with their normals, the
    same cloud moved by (1/10, -1/20, 1/30), and a solve that aligns the
    moved cloud with the first. *)
Definition v3 (a b c : Z) : vec3 := (Qc_of_Z a, Qc_of_Z b, Qc_of_Z c).

Definition example_target : PointCloud := {|
  points := [v3 1 0 0; v3 0 1 0; v3 2 2 0; v3 0 1 1; v3 0 3 1; v3 0 1 3;
             v3 1 0 1; v3 3 0 1; v3 1 0 3];
  normals := Some [v3 0 0 1; v3 0 0 1; v3 0 0 1; v3 1 0 0; v3 1 0 0; v3 1 0 0;
                   v3 0 1 0; v3 0 1 0; v3 0 1 0];
  colors := Some [v3 1 0 0; v3 1 0 0; v3 1 0 0; v3 0 1 0; v3 0 1 0; v3 0 1 0;
                  v3 0 0 1; v3 0 0 1; v3 0 0 1];
|}.

Definition example_shift : Transformation :=
  {| rotation := rotation identity;
     translation := (Q2Qc (1 # 10), Q2Qc (-1 # 20), Q2Qc (1 # 30)) |}.

Definition example_source : PointCloud := transform_cloud example_shift example_target.

Definition example_solve (est : Estimator) (maxDistance : Qc) (iterations : Z) : Solve :=
  {| source := example_source;
     target := example_target;
     maxCorrespondenceDistance := maxDistance;
     initial := identity;
     estimator := est;
     criteria := {| relativeFitness := Q2Qc (1 # 1000000);
                    relativeRmse := Q2Qc (1 # 1000000);
                    maxIteration := iterations |} |}.

(** ** Binning *)
Section Bins.
Context {A : Type}.
Implicit Types (bins : list (voxel * list A)) (kvs : list (voxel * A)).

Lemma insert_bin_keys k a bins :
  (insert_bin k a bins).*1 = if decide (k ∈ bins.*1) then bins.*1 else bins.*1 ++ [k].
Proof.
  induction bins as [|[k' l] bins IH]; [done|].
  cbn [insert_bin]. rewrite fmap_cons. cbn [fst].
  destruct (decide (k = k')) as [->|Hne].
  - rewrite fmap_cons, decide_True; [done|]. apply elem_of_cons; auto.
  - rewrite fmap_cons, IH. cbn [fst].
    destruct (decide (k ∈ bins.*1)) as [Hin|Hin].
    + rewrite decide_True; [done|]. apply elem_of_cons; auto.
    + rewrite decide_False; [done|]. rewrite elem_of_cons. tauto.
Qed.

Lemma get_bin_insert k' k a bins :
  get_bin k' (insert_bin k a bins) =
    if decide (k' = k) then get_bin k bins ++ [a] else get_bin k' bins.
Proof.
  induction bins as [|[k0 l] bins IH]; cbn [insert_bin get_bin].
  - by destruct (decide (k' = k)) as [->|].
  - destruct (decide (k = k0)) as [->|Hne]; cbn [get_bin].
    + by destruct (decide (k' = k0)) as [->|].
    + rewrite IH.
      destruct (decide (k' = k0)) as [->|]; [|done].
      by rewrite decide_False by done.
Qed.

Lemma members_snoc k' k a kvs :
  members k' (kvs ++ [(k, a)]) =
    if decide (k' = k) then members k' kvs ++ [a] else members k' kvs.
Proof.
  unfold members. rewrite filter_app, fmap_app.
  destruct (decide (k' = k)) as [->|Hne].
  - by rewrite filter_cons_True.
  - rewrite filter_cons_False by (simpl; congruence). simpl. by rewrite app_nil_r.
Qed.

Lemma bins_by_keys bins :
  NoDup bins.*1 -> bins = map (fun k => (k, get_bin k bins)) bins.*1.
Proof.
  induction bins as [|[k l] bins IH]; [done|].
  simpl. intros [Hk Hnd]%NoDup_cons. rewrite decide_True by done. f_equal.
  rewrite IH at 1 by done. apply map_ext_in.
  intros k' Hin%list_elem_of_In. rewrite decide_False; [done|]. congruence.
Qed.

(** The bins made of keyed values: their cubes are distinct, they are the
    cubes that hold a value, and the bin of a cube holds its members. *)
Definition binned bins kvs : Prop :=
  NoDup bins.*1 /\
  (forall k, k ∈ bins.*1 <-> k ∈ kvs.*1) /\
  (forall k, get_bin k bins = members k kvs).

Lemma binned_insert k a bins kvs :
  binned bins kvs -> binned (insert_bin k a bins) (kvs ++ [(k, a)]).
Proof.
  intros (Hnd & Hkeys & Hget). split; [|split].
  - rewrite insert_bin_keys. case_decide; [done|].
    apply NoDup_app. split; [done|]. split; [|apply NoDup_singleton].
    intros x Hx ->%list_elem_of_singleton. done.
  - intros k'. rewrite insert_bin_keys, fmap_app, elem_of_app. simpl.
    rewrite list_elem_of_singleton, <- Hkeys.
    case_decide; [|rewrite elem_of_app, list_elem_of_singleton; tauto].
    split; [tauto|]. intros [?| ->]; done.
  - intros k'. rewrite get_bin_insert, members_snoc, !Hget.
    by destruct (decide (k' = k)) as [->|].
Qed.

Lemma binned_fold kvs' bins kvs :
  binned bins kvs ->
  binned (fold_left (fun bins ka => insert_bin ka.1 ka.2 bins) kvs' bins) (kvs ++ kvs').
Proof.
  revert bins kvs. induction kvs' as [|[k a] kvs' IH]; intros bins kvs H; simpl.
  - by rewrite app_nil_r.
  - rewrite (assoc_L _ kvs [(k, a)] kvs' : kvs ++ (k, a) :: kvs' = (kvs ++ [(k, a)]) ++ kvs').
    apply IH. by apply binned_insert.
Qed.

Lemma binned_bin_by keys (vals : list A) : binned (bin_by keys vals) (zip keys vals).
Proof.
  apply (binned_fold (zip keys vals) [] []).
  split; [constructor|]. split; [done|]. done.
Qed.

(** The bins in closed form. *)
Lemma bin_by_spec keys (vals : list A) :
  exists ks,
    NoDup ks /\ (forall k, k ∈ ks <-> k ∈ (zip keys vals).*1) /\
    bin_by keys vals = map (fun k => (k, members k (zip keys vals))) ks.
Proof.
  destruct (binned_bin_by keys vals) as (Hnd & Hkeys & Hget).
  exists (bin_by keys vals).*1. split; [done|]. split; [done|].
  rewrite (bins_by_keys (bin_by keys vals)) at 1 by done.
  apply map_ext. intros k. by rewrite Hget.
Qed.

End Bins.

Lemma members_zip_map {A} (f : A -> voxel) (l : list A) k :
  members k (zip (map f l) l) = filter (fun q => f q = k) l.
Proof.
  unfold members. induction l as [|q l IH]; [done|].
  cbn [map zip zip_with]. destruct (decide (f q = k)) as [Hk|Hk].
  - rewrite !filter_cons_True by done. rewrite fmap_cons. simpl. by f_equal.
  - rewrite !filter_cons_False by done. done.
Qed.

Lemma keys_zip_map {A} (f : A -> voxel) (l : list A) :
  (zip (map f l) l).*1 = map f l.
Proof.
  induction l as [|q l IH]; [done|]. cbn [map zip zip_with].
  rewrite fmap_cons. simpl. by f_equal.
Qed.

(** ** Means and bounding boxes *)

Lemma Qc_of_nat_S n : Qc_of_nat (S n) = 1 + Qc_of_nat n.
Proof.
  unfold Qc_of_nat. rewrite Nat2Z.inj_succ, <- Z.add_1_l, Z2Qc_inj_add.
  by rewrite Z2Qc_inj_1.
Qed.

Lemma Qc_of_nat_nonneg n : 0 ≤ Qc_of_nat n.
Proof.
  unfold Qc_of_nat. rewrite <- Z2Qc_inj_0, <- Z2Qc_inj_le. lia.
Qed.

Lemma Qc_of_nat_pos n : (0 < n)%nat -> 0 < Qc_of_nat n.
Proof.
  intros Hn. unfold Qc_of_nat. rewrite <- Z2Qc_inj_0, <- Z2Qc_inj_lt. lia.
Qed.

(** The coordinates are linear. *)
Definition linear (f : vec3 -> Qc) : Prop :=
  f vzero = 0 /\
  (forall a b, f (vadd a b) = f a + f b) /\
  (forall k a, f (vscale k a) = k * f a).

Lemma linear_vx : linear vx.
Proof. repeat split. Qed.
Lemma linear_vy : linear vy.
Proof. repeat split. Qed.
Lemma linear_vz : linear vz.
Proof. repeat split. Qed.

Lemma sum_lower f lo (l : list vec3) :
  linear f -> (forall q, q ∈ l -> lo ≤ f q) -> Qc_of_nat (length l) * lo ≤ f (vsum l).
Proof.
  intros (Hz & Hadd & _) Hlo. induction l as [|q l IH].
  - cbn [length vsum foldr]. rewrite Hz. unfold Qc_of_nat.
    change (Z.of_nat 0) with 0%Z. rewrite Z2Qc_inj_0, Qcmult_0_l. apply Qcle_refl.
  - cbn [length vsum foldr]. rewrite Hadd, Qc_of_nat_S, Qcmult_plus_distr_l, Qcmult_1_l.
    apply Qcplus_le_compat.
    + apply Hlo. by left.
    + apply IH. intros q' Hq'. apply Hlo. by right.
Qed.

Lemma sum_upper f hi (l : list vec3) :
  linear f -> (forall q, q ∈ l -> f q ≤ hi) -> f (vsum l) ≤ Qc_of_nat (length l) * hi.
Proof.
  intros (Hz & Hadd & _) Hhi. induction l as [|q l IH].
  - cbn [length vsum foldr]. rewrite Hz. unfold Qc_of_nat.
    change (Z.of_nat 0) with 0%Z. rewrite Z2Qc_inj_0, Qcmult_0_l. apply Qcle_refl.
  - cbn [length vsum foldr]. rewrite Hadd, Qc_of_nat_S, Qcmult_plus_distr_l, Qcmult_1_l.
    apply Qcplus_le_compat.
    + apply Hhi. by left.
    + apply IH. intros q' Hq'. apply Hhi. by right.
Qed.

Lemma mean_between f lo hi (l : list vec3) :
  linear f -> l <> [] ->
  (forall q, q ∈ l -> lo ≤ f q ≤ hi) ->
  lo ≤ f (vmean l) ≤ hi.
Proof.
  intros Hf Hne Hb.
  assert (Hn : 0 < Qc_of_nat (length l)).
  { apply Qc_of_nat_pos. destruct l; [done|simpl; lia]. }
  assert (Hn0 : Qc_of_nat (length l) <> 0).
  { intros E. rewrite E in Hn. by apply Qclt_not_eq in Hn. }
  assert (Hinv : 0 ≤ / Qc_of_nat (length l)) by by apply Qclt_le_weak, Qcinv_pos.
  assert (Hcancel : forall x,
            / Qc_of_nat (length l) * (Qc_of_nat (length l) * x) = x)
    by (intros x; field; done).
  pose proof Hf as (_ & _ & Hsc). unfold vmean. rewrite Hsc. split.
  - rewrite <- (Hcancel lo) at 1.
    apply Qcmult_le_mono_nonneg_l; [done|].
    apply sum_lower; [done|]. intros q Hq. by apply Hb.
  - rewrite <- (Hcancel hi) at 1.
    apply Qcmult_le_mono_nonneg_l; [done|].
    apply sum_upper; [done|]. intros q Hq. by apply Hb.
Qed.

Lemma Qcmin_le_l x y : Qcmin x y ≤ x.
Proof.
  unfold Qcmin. case_decide; [apply Qcle_refl|].
  by apply Qclt_le_weak, Qcnot_le_lt.
Qed.
Lemma Qcmin_le_r x y : Qcmin x y ≤ y.
Proof. unfold Qcmin. case_decide; [done|apply Qcle_refl]. Qed.
Lemma Qcmax_le_l x y : x ≤ Qcmax x y.
Proof. unfold Qcmax. case_decide; [done|apply Qcle_refl]. Qed.
Lemma Qcmax_le_r x y : y ≤ Qcmax x y.
Proof.
  unfold Qcmax. case_decide; [apply Qcle_refl|].
  by apply Qclt_le_weak, Qcnot_le_lt.
Qed.

Lemma vle_refl a : vle a a.
Proof. repeat split; apply Qcle_refl. Qed.

Lemma vle_trans a b c : vle a b -> vle b c -> vle a c.
Proof.
  intros (?&?&?) (?&?&?). repeat split; eapply Qcle_trans; eauto.
Qed.

Lemma vmin_le_l a b : vle (vmin a b) a.
Proof. repeat split; apply Qcmin_le_l. Qed.
Lemma vmin_le_r a b : vle (vmin a b) b.
Proof. repeat split; apply Qcmin_le_r. Qed.
Lemma vmax_le_l a b : vle a (vmax a b).
Proof. repeat split; apply Qcmax_le_l. Qed.
Lemma vmax_le_r a b : vle b (vmax a b).
Proof. repeat split; apply Qcmax_le_r. Qed.

Lemma foldr_vmin_le p (l : list vec3) q :
  q = p \/ q ∈ l -> vle (foldr vmin p l) q.
Proof.
  induction l as [|a l IH]; simpl.
  - intros [->|Hq%not_elem_of_nil]; [apply vle_refl|done].
  - intros [->|[->|Hq]%elem_of_cons].
    + eapply vle_trans; [apply vmin_le_r|]. apply IH. by left.
    + apply vmin_le_l.
    + eapply vle_trans; [apply vmin_le_r|]. apply IH. by right.
Qed.

Lemma foldr_vmax_le p (l : list vec3) q :
  q = p \/ q ∈ l -> vle q (foldr vmax p l).
Proof.
  induction l as [|a l IH]; simpl.
  - intros [->|Hq%not_elem_of_nil]; [apply vle_refl|done].
  - intros [->|[->|Hq]%elem_of_cons].
    + eapply vle_trans; [|apply vmax_le_r]. apply IH. by left.
    + apply vmax_le_l.
    + eapply vle_trans; [|apply vmax_le_r]. apply IH. by right.
Qed.

Lemma min_bound_le (l : list vec3) q : q ∈ l -> vle (min_bound l) q.
Proof.
  destruct l as [|p l]; [by intros ?%not_elem_of_nil|].
  intros Hq%elem_of_cons. by apply foldr_vmin_le.
Qed.

Lemma max_bound_le (l : list vec3) q : q ∈ l -> vle q (max_bound l).
Proof.
  destruct l as [|p l]; [by intros ?%not_elem_of_nil|].
  intros Hq%elem_of_cons. by apply foldr_vmax_le.
Qed.

(** The mean of a non-empty list of points lies in its bounding box. *)
Lemma vmean_in_bounds (l : list vec3) :
  l <> [] -> vle (min_bound l) (vmean l) /\ vle (vmean l) (max_bound l).
Proof.
  intros Hne.
  assert (Hbox : forall q, q ∈ l -> vle (min_bound l) q /\ vle q (max_bound l))
    by (intros q Hq; split; [by apply min_bound_le|by apply max_bound_le]).
  destruct (mean_between vx (vx (min_bound l)) (vx (max_bound l)) l linear_vx Hne)
    as [? ?]; [intros q Hq; destruct (Hbox q Hq) as [(?&?&?) (?&?&?)]; done|].
  destruct (mean_between vy (vy (min_bound l)) (vy (max_bound l)) l linear_vy Hne)
    as [? ?]; [intros q Hq; destruct (Hbox q Hq) as [(?&?&?) (?&?&?)]; done|].
  destruct (mean_between vz (vz (min_bound l)) (vz (max_bound l)) l linear_vz Hne)
    as [? ?]; [intros q Hq; destruct (Hbox q Hq) as [(?&?&?) (?&?&?)]; done|].
  by repeat split.
Qed.

(** ** Cubes *)

Lemma Qc_floor_le (y : Qc) : Qc_of_Z (Qcfloor y) ≤ y.
Proof. apply Qfloor_le. Qed.

Lemma Qc_lt_floor (y : Qc) : y < Qc_of_Z (Qcfloor y) + 1.
Proof.
  rewrite <- Z2Qc_inj_1, <- Z2Qc_inj_add. apply Qlt_floor.
Qed.

Lemma floor_cell (v x : Qc) :
  0 < v ->
  Qc_of_Z (Qcfloor (x / v)) * v ≤ x /\ x < (Qc_of_Z (Qcfloor (x / v)) + 1) * v.
Proof.
  intros Hv.
  assert (Hv0 : v <> 0) by (intros ->; by apply Qclt_not_eq in Hv).
  assert (Hx : x / v * v = x) by (field; done).
  split.
  - rewrite <- Hx at 2. apply Qcmult_le_mono_nonneg_r; [by apply Qclt_le_weak|].
    apply Qc_floor_le.
  - rewrite <- Hx at 1. apply Qcmult_lt_mono_pos_r; [done|]. apply Qc_lt_floor.
Qed.

Lemma voxel_of_in_cube v p : 0 < v -> in_cube v (voxel_of v p) p.
Proof.
  intros Hv. unfold in_cube, voxel_of. simpl.
  split; [|split]; by apply floor_cell.
Qed.

(** ** The output of down-sampling *)

(** The points of [cloud] in cube [k]. *)
Definition cell (v : Qc) (cloud : PointCloud) (k : voxel) : list vec3 :=
  filter (fun q => voxel_of v q = k) (points cloud).

Lemma downsample_points `{Numerics} cloud v :
  0 < v ->
  exists out ks,
    downsample cloud v = inr out /\
    NoDup ks /\
    (forall k, k ∈ ks <-> exists q, q ∈ points cloud /\ voxel_of v q = k) /\
    points out = map (fun k => vmean (cell v cloud k)) ks.
Proof.
  intros Hv. unfold downsample.
  rewrite decide_False by by apply Qclt_not_le.
  destruct (bin_by_spec (map (voxel_of v) (points cloud)) (points cloud))
    as (ks & Hnd & Hks & Hbins).
  eexists _, ks. split; [reflexivity|]. split; [done|]. split.
  - intros k. rewrite Hks, keys_zip_map, list_elem_of_fmap.
    split; [intros (q & -> & Hq)|intros (q & Hq & <-)]; eauto.
  - simpl. rewrite Hbins, map_map. apply map_ext. intros k. simpl.
    by rewrite members_zip_map.
Qed.

Lemma cell_nonempty v cloud k q :
  q ∈ points cloud -> voxel_of v q = k -> cell v cloud k <> [].
Proof.
  intros Hq Hk Hnil.
  assert (q ∈ cell v cloud k) as Hin by (apply list_elem_of_filter; done).
  rewrite Hnil in Hin. by apply not_elem_of_nil in Hin.
Qed.

Lemma cell_in_cube v cloud k : 0 < v -> Forall (in_cube v k) (cell v cloud k).
Proof.
  intros Hv. apply Forall_forall. intros q [<- _]%list_elem_of_filter.
  by apply voxel_of_in_cube.
Qed.

(** ** Correspondences *)

Lemma accept_source_index idx d i p c :
  accept idx d i p = Some c -> source_index c = i.
Proof.
  unfold accept. destruct (nearestOne idx p) as [[j dj]|]; [|done].
  case_decide; [|done]. by intros [= <-].
Qed.

Lemma filter_ext_elem {A} (P Q : A -> Prop) `{!forall x, Decision (P x)}
    `{!forall x, Decision (Q x)} (l : list A) :
  (forall x, x ∈ l -> P x <-> Q x) -> filter P l = filter Q l.
Proof.
  induction l as [|x l IH]; intros Hext; [done|].
  assert (Hx : P x <-> Q x) by (apply Hext; by left).
  assert (Hl : filter P l = filter Q l)
    by (apply IH; intros y Hy; apply Hext; by right).
  destruct (decide (P x)) as [HP|HP].
  - rewrite !filter_cons_True by tauto. by f_equal.
  - rewrite !filter_cons_False by tauto. done.
Qed.

Lemma matches_from idx d (l : list vec3) o :
  map source_index (omap id (imap (fun i => accept idx d (o + i)%nat) l)) =
  filter (fun i => is_Some (l !! (i - o)%nat ≫= accept idx d i)) (seq o (length l)).
Proof.
  revert o. induction l as [|p l IH]; intros o; [done|].
  rewrite imap_cons. cbn [length seq].
  assert (Htail :
    map source_index (omap id (imap ((fun i => accept idx d (o + i)%nat) ∘ S) l)) =
    filter (fun i => is_Some ((p :: l) !! (i - o)%nat ≫= accept idx d i)) (seq (S o) (length l))).
  { rewrite (imap_ext _ (fun i => accept idx d (S o + i)%nat))
      by (intros i x _; simpl; f_equal; lia).
    rewrite IH. apply filter_ext_elem. intros i Hi%elem_of_seq.
    replace (i - o)%nat with (S (i - S o)) by lia. done. }
  replace (o + 0)%nat with o by lia.
  destruct (accept idx d o p) as [c|] eqn:Hc.
  - rewrite filter_cons_True
      by (replace (o - o)%nat with 0%nat by lia; simpl; rewrite Hc; eauto).
    change (omap id (Some c :: ?l')) with (c :: omap id l'). cbn [map].
    rewrite (accept_source_index _ _ _ _ _ Hc). f_equal. exact Htail.
  - rewrite filter_cons_False
      by (replace (o - o)%nat with 0%nat by lia; simpl; rewrite Hc; by intros [? ?]).
    change (omap id (None :: ?l')) with (omap (B := Correspondence) id l'). exact Htail.
Qed.

(** The correspondences are those of the matched source points, one each,
    in source order; a point without an accepted match has none. *)
Lemma findCorrespondences_matched s t idx d :
  map source_index (findCorrespondences s t idx d) =
  filter (matched s idx d) (seq 0 (size s)).
Proof.
  unfold findCorrespondences, matched, size.
  rewrite (imap_ext _ (fun i => accept idx d (0 + i)%nat)) by done.
  rewrite matches_from. apply filter_ext_elem. intros i _.
  by replace (i - 0)%nat with i by lia.
Qed.

Lemma findCorrespondences_length s t idx d :
  (length (findCorrespondences s t idx d) <= size s)%nat.
Proof.
  rewrite <- (length_map source_index), findCorrespondences_matched.
  etransitivity; [apply length_filter|]. by rewrite length_seq.
Qed.

(** ** Estimators *)
Section EstimatorFacts.
Context {num : Numerics}.

Lemma requires_point_to_plane source target :
  requires PointToPlane source target = true <-> is_Some (normals target).
Proof. unfold requires, has_normals. apply bool_decide_eq_true. Qed.

Lemma requires_colored lambda source target :
  requires (ColoredICP lambda) source target = true <->
  is_Some (normals source) /\ is_Some (colors source) /\
  is_Some (normals target) /\ is_Some (colors target).
Proof.
  unfold requires, has_normals, has_colors.
  rewrite !andb_true_iff, !bool_decide_eq_true. tauto.
Qed.

(** With no weight on the color term, the term of a correspondence in the
    colored objective is its point-to-plane term. *)
Lemma term_without_color lambda source target c :
  photometric_weight lambda = 0 ->
  term (ColoredICP lambda) source target c = term PointToPlane source target c.
Proof.
  unfold photometric_weight. intros Hw.
  assert (lambda = 1) as -> by (rewrite <- (Qcplus_0_l lambda), <- Hw; ring).
  unfold term, photometric_term, geometric_term, photometric_weight.
  destruct (photometric _ _ _ _) as [[jr jt] r].
  unfold add_system, scale_system, row_system, row6.
  cbn [JTJ JTr squared_residual map zip_with].
  f_equal; repeat (f_equal; try ring).
Qed.

Lemma normal_equations_without_color lambda source target cs :
  photometric_weight lambda = 0 ->
  normal_equations (ColoredICP lambda) source target cs =
  normal_equations PointToPlane source target cs.
Proof.
  intros Hw. unfold normal_equations. f_equal.
  apply map_ext. intros c. by apply term_without_color.
Qed.

Lemma estimate_fitness est cs source target :
  (estimate est cs source target).1.2 = fitness_of cs source.
Proof. by destruct est. Qed.

End EstimatorFacts.

(** ** The solver *)
Section SolverFacts.
Context {num : Numerics}.
Implicit Types (call : Solve) (st : SolverState).

Lemma step_terminal call st : terminal st = true -> step call st = st.
Proof. by destruct st. Qed.

Lemma run_terminal call n st : terminal st = true -> run call n st = st.
Proof.
  intros Ht. induction n as [|n IH]; [done|]. simpl. by rewrite step_terminal.
Qed.

Lemma run_S_end call n st : run call (S n) st = step call (run call n st).
Proof.
  revert st. induction n as [|n IH]; intros st; [done|].
  change (run call (S (S n)) st) with (run call (S n) (step call st)).
  by rewrite IH.
Qed.

Lemma run_add call n m st : run call (n + m) st = run call m (run call n st).
Proof.
  revert st. induction n as [|n IH]; intros st; [done|]. simpl. apply IH.
Qed.

(** What a step from an iterating state gives. *)
Lemma step_iterating call k T prev :
  let res := iteration call T in
  step call (Iterating k T prev) =
    if decide (k = 0%nat /\ correspondences_at call T = []) then Failed NoCorrespondences
    else if converged (criteria call) prev (fitness res) (inlierRmse res) then Converged res
    else if decide (maxIteration (criteria call) <= Z.of_nat (S k))%Z
         then MaxIterationsReached res
         else Iterating (S k) (transformation res) (Some (fitness res, inlierRmse res)).
Proof. reflexivity. Qed.

(** The loop ends: from iteration [k], [maxIteration - k] further steps
    (at least one) reach a terminal state. *)
Lemma run_iterating_terminal call n k T prev :
  (Z.to_nat (maxIteration (criteria call)) <= k + n)%nat -> (1 <= n)%nat ->
  terminal (run call n (Iterating k T prev)) = true.
Proof.
  revert k T prev. induction n as [|n IH]; intros k T prev Hmax Hn; [lia|].
  change (run call (S n) (Iterating k T prev))
    with (run call n (step call (Iterating k T prev))).
  rewrite step_iterating. cbv zeta.
  repeat case_decide; try (by rewrite run_terminal).
  - destruct (converged _ _ _ _); by rewrite run_terminal.
  - destruct (converged _ _ _ _); [by rewrite run_terminal|].
    apply IH; lia.
Qed.

Lemma solve_terminal call : terminal (solve call) = true.
Proof.
  unfold solve.
  change (run call (S (S ?n)) Initializing)
    with (run call (S n) (step call Initializing)).
  cbn [step]. repeat case_decide.
  - by rewrite run_terminal.
  - destruct (requires _ _ _); [|by rewrite run_terminal].
    apply run_iterating_terminal; lia.
Qed.

Lemma reachable_step call st : reachable call st -> reachable call (step call st).
Proof. intros [n <-]. exists (S n). apply run_S_end. Qed.

Lemma solve_reachable call : reachable call (solve call).
Proof. by eexists. Qed.

(** A terminal state that the solve passes through is the state in which
    it ends. *)
Lemma solve_from_reachable call st :
  reachable call st -> terminal st = true -> solve call = st.
Proof.
  intros [n <-] Ht. unfold solve.
  set (N := S (S (Z.to_nat (maxIteration (criteria call))))).
  destruct (decide (n <= N)%nat) as [Hle|Hgt].
  - replace N with (n + (N - n))%nat by lia. rewrite run_add. by apply run_terminal.
  - replace n with (N + (n - N))%nat by lia. rewrite run_add.
    symmetry. apply run_terminal. apply (solve_terminal call).
Qed.

(** A terminal state is entered by a step from a state that is not. *)
Lemma terminal_predecessor call st :
  reachable call st -> terminal st = true ->
  exists st', reachable call st' /\ terminal st' = false /\ step call st' = st.
Proof.
  intros [n <-]. induction n as [|n IH]; [done|].
  rewrite run_S_end. intros Ht.
  destruct (terminal (run call n Initializing)) eqn:Hn.
  - rewrite step_terminal by done. by apply IH.
  - exists (run call n Initializing). split; [by eexists|]. done.
Qed.

(** An iterating state is reached by a call that passed the checks, and it
    carries the fitness and RMSE of the iteration before it. *)
Lemma reachable_iterating call k T prev :
  reachable call (Iterating k T prev) ->
  (0 <= maxIteration (criteria call))%Z /\
  requires (estimator call) (source call) (target call) = true /\
  match prev with
  | None => k = 0%nat /\ T = initial call
  | Some (pf, pr) =>
      exists k' T' prev',
        k = S k' /\ reachable call (Iterating k' T' prev') /\
        T = transformation (iteration call T') /\
        pf = fitness (iteration call T') /\
        pr = inlierRmse (iteration call T')
  end.
Proof.
  intros [n Hn]. revert k T prev Hn.
  induction n as [|n IH]; intros k T prev Hn; [done|].
  rewrite run_S_end in Hn.
  destruct (run call n Initializing) as [|k' T' prev'| | |] eqn:Hst; try done.
  - cbn [step] in Hn. case_decide; [done|].
    destruct (requires _ _ _) eqn:Hreq; [|done].
    injection Hn as <- <- <-. split; [lia|]. done.
  - destruct (IH k' T' prev' eq_refl) as (Hmax & Hreq & _).
    rewrite step_iterating in Hn. cbv zeta in Hn.
    case_decide; [done|]. destruct (converged _ _ _ _); [done|].
    case_decide; [done|]. injection Hn as <- <- <-.
    split; [done|]. split; [done|].
    exists k', T', prev'. split; [done|]. split; [by exists n|]. done.
Qed.

Lemma iterating_from_zero call T prev :
  reachable call (Iterating 0 T prev) -> T = initial call /\ prev = None.
Proof.
  intros H. apply reachable_iterating in H as (_ & _ & H).
  destruct prev as [[pf pr]|]; [|by destruct H].
  by destruct H as (k' & T' & prev' & [=] & _).
Qed.

Lemma reachable_first_iteration call :
  (0 <= maxIteration (criteria call))%Z ->
  requires (estimator call) (source call) (target call) = true ->
  reachable call (Iterating 0 (initial call) None).
Proof.
  intros Hmax Hreq. exists 1%nat. cbn [run step].
  rewrite decide_False by lia. by rewrite Hreq.
Qed.

(** Why a solve fails. *)
Lemma solve_failed call e :
  solve call = Failed e ->
  (e = InvalidArgument /\ (maxIteration (criteria call) < 0)%Z) \/
  (e = MissingAttribute /\ (0 <= maxIteration (criteria call))%Z /\
     requires (estimator call) (source call) (target call) = false) \/
  (e = NoCorrespondences /\ (0 <= maxIteration (criteria call))%Z /\
     requires (estimator call) (source call) (target call) = true /\
     correspondences_at call (initial call) = []).
Proof.
  intros Hs.
  destruct (terminal_predecessor call (Failed e)) as (st' & Hr & Hnt & Hstep);
    [rewrite <- Hs; apply solve_reachable|done|].
  destruct st' as [|k T prev| | |]; try done.
  - cbn [step] in Hstep. case_decide; [left; by injection Hstep as <-|].
    destruct (requires _ _ _); [done|]. right; left.
    injection Hstep as <-. split; [done|]. split; [lia|done].
  - pose proof (reachable_iterating call k T prev Hr) as (Hmax & Hreq & _).
    rewrite step_iterating in Hstep. cbv zeta in Hstep.
    case_decide as Hk.
    + destruct Hk as [-> Hcs]. apply iterating_from_zero in Hr as [-> ->].
      injection Hstep as <-. right; right. done.
    + destruct (converged _ _ _ _); [done|]. by case_decide.
Qed.

End SolverFacts.

(** ** The normal equations handed to the linear solver

    Section 4.5 describes the system of the linearized variants as one in
    six unknowns, symmetric and positive semi-definite. *)
Section NormalEquations.
Context {num : Numerics}.






















End NormalEquations.

(** ** Failures at the call boundary (section 7) *)
Section CallBoundary.
Context {num : Numerics}.


End CallBoundary.

End Core.

(* ===================================================================== *)
(** * Part III: the properties                                            *)
(* ===================================================================== *)

Section CoreProperties.
Import Core.
Local Open Scope Qc_scope.
Context {num : Numerics}.

(** C5. For a positive voxel size, down-sampling returns a cloud of at most
    as many points as its input.  Its points are the arithmetic means of
    the input points of the occupied cubes of edge [v], one point for each
    occupied cube, and each lies in the bounding box of the points it
    averages. *)
Theorem downsample_means (cloud : PointCloud) (v : Qc) :
  0 < v ->
  exists out ks,
    downsample cloud v = inr out /\
    (size out <= size cloud)%nat /\
    points out = map (fun k => vmean (cell v cloud k)) ks /\
    NoDup ks /\
    (forall q, q ∈ points cloud -> voxel_of v q ∈ ks) /\
    Forall (fun k =>
              cell v cloud k <> [] /\
              Forall (in_cube v k) (cell v cloud k) /\
              vle (min_bound (cell v cloud k)) (vmean (cell v cloud k)) /\
              vle (vmean (cell v cloud k)) (max_bound (cell v cloud k))) ks.
Proof.
  intros Hv.
  destruct (downsample_points cloud v Hv) as (out & ks & Hd & Hnd & Hks & Hpts).
  exists out, ks. split; [done|]. split; [|split; [done|split; [done|split]]].
  - unfold size. rewrite Hpts, length_map.
    transitivity (length (map (voxel_of v) (points cloud))); [|by rewrite length_map].
    apply submseteq_length, NoDup_submseteq; [done|].
    intros k (q & Hq & <-)%Hks. apply list_elem_of_fmap. eauto.
  - intros q Hq. apply Hks. eauto.
  - apply Forall_forall. intros k (q & Hq & Hk)%Hks.
    pose proof (cell_nonempty v cloud k q Hq Hk) as Hne.
    split; [done|]. split; [by apply cell_in_cube|].
    by apply vmean_in_bounds.
Qed.

(** C1. On clouds that carry normals and colors, the colored estimator
    with no weight on its photometric term gives the result of the
    point-to-plane estimator on the same correspondences: the same
    incremental transform, and the same fitness and RMSE. *)
Theorem colored_without_color_is_point_to_plane (lambda : Qc)
    (cs : list Correspondence) (source target : PointCloud) :
  photometric_weight lambda = 0 ->
  is_Some (normals source) -> is_Some (colors source) ->
  is_Some (normals target) -> is_Some (colors target) ->
  exists T f r,
    estimateIncrement (ColoredICP lambda) cs source target = inr (T, f, r) /\
    estimateIncrement PointToPlane cs source target = inr (T, f, r).
Proof.
  intros Hw Hns Hcs Hnt Hct. unfold estimateIncrement.
  rewrite (proj2 (requires_colored lambda source target)) by done.
  rewrite (proj2 (requires_point_to_plane source target)) by done.
  unfold estimate. rewrite normal_equations_without_color by done.
  by eexists _, _, _.
Qed.



(** C2. A solve fails with [NoCorrespondences] exactly when its call is
    accepted and iteration 0 finds no correspondence.  If iteration 0
    finds one, the solve ends with a result; no later iteration fails.  The
    correspondences of an iteration are those of the source points that
    have an accepted match, one each; the others are left out, and the
    fitness of the iteration is the share of the source points that have
    one. *)
Theorem no_correspondences_only_at_iteration_0 (call : Solve) :
  (solve call = Failed NoCorrespondences <->
     (0 <= maxIteration (criteria call))%Z /\
     requires (estimator call) (source call) (target call) = true /\
     correspondences_at call (initial call) = []) /\
  ((0 <= maxIteration (criteria call))%Z ->
   requires (estimator call) (source call) (target call) = true ->
   correspondences_at call (initial call) <> [] ->
   exists res, solve call = Converged res \/ solve call = MaxIterationsReached res) /\
  (forall k T prev e, step call (Iterating (S k) T prev) <> Failed e) /\
  (forall T,
     let moved := transform_cloud T (source call) in
     let cs := correspondences_at call T in
     map source_index cs =
       filter (matched moved (build (points (target call)))
                       (maxCorrespondenceDistance call))
              (seq 0 (size (source call))) /\
     fitness (iteration call T) =
       Qc_of_nat (length cs) / Qc_of_nat (size (source call))).
Proof.
  split; [|split; [|split]].
  - split.
    + intros Hs. apply solve_failed in Hs as [[[=] _]|[[[=] _]|[_ H]]]. done.
    + intros (Hmax & Hreq & Hcs). apply solve_from_reachable; [|done].
      pose proof (reachable_step call _ (reachable_first_iteration call Hmax Hreq)) as Hr.
      rewrite step_iterating in Hr. by rewrite decide_True in Hr.
  - intros Hmax Hreq Hcs.
    pose proof (solve_terminal call) as Ht.
    destruct (solve call) as [| |res|res|e] eqn:Hs; try done; eauto.
    apply solve_failed in Hs as [[_ ?]|[(_ & _ & ?)|(_ & _ & _ & ?)]];
      [lia|congruence|done].
  - intros k T prev e. rewrite step_iterating. cbv zeta.
    rewrite decide_False by (by intros [[=] _]).
    destruct (converged _ _ _ _); [done|]. by case_decide.
  - intros T moved cs. split.
    + unfold cs, correspondences_at, moved.
      rewrite findCorrespondences_matched. f_equal.
      unfold size, transform_cloud. simpl. by rewrite length_map.
    + unfold iteration.
      pose proof (estimate_fitness (estimator call) (correspondences_at call T)
                    (transform_cloud T (source call)) (target call)) as Hf.
      destruct (estimate _ _ _ _) as [[inc f] r]. simpl in *. subst f.
      unfold fitness_of, size, transform_cloud. simpl. by rewrite length_map.
Qed.

(** C3. A solve ends, in [Converged], in [MaxIterationsReached] or in a
    failure, and the first two carry a result.  It ends in [Converged] with
    the result of an iteration exactly when that iteration has one before
    it and its fitness and RMSE are both within the relative thresholds of
    those of the iteration before; it ends in [MaxIterationsReached] with
    the result of an iteration exactly when that iteration does not pass
    this test and its count reaches [maxIteration].  An iterating state
    carries the fitness and RMSE of the iteration before it, and none at
    iteration 0. *)
Theorem solve_ends_converged_or_at_max (call : Solve) :
  ((exists res, solve call = Converged res \/ solve call = MaxIterationsReached res) \/
   (exists e, solve call = Failed e)) /\
  (forall res,
     solve call = Converged res <->
     exists k T pf pr,
       reachable call (Iterating k T (Some (pf, pr))) /\
       res = iteration call T /\
       Qcabs (fitness res - pf) < relativeFitness (criteria call) /\
       Qcabs (inlierRmse res - pr) < relativeRmse (criteria call)) /\
  (forall res,
     solve call = MaxIterationsReached res <->
     exists k T prev,
       reachable call (Iterating k T prev) /\
       ~ (k = 0%nat /\ correspondences_at call T = []) /\
       res = iteration call T /\
       converged (criteria call) prev (fitness res) (inlierRmse res) = false /\
       (maxIteration (criteria call) <= Z.of_nat (S k))%Z) /\
  (forall k T prev,
     reachable call (Iterating k T prev) ->
     match prev with
     | None => k = 0%nat
     | Some (pf, pr) =>
         exists k' T' prev',
           k = S k' /\ reachable call (Iterating k' T' prev') /\
           T = transformation (iteration call T') /\
           pf = fitness (iteration call T') /\
           pr = inlierRmse (iteration call T')
     end).
Proof.
  assert (Hpred : forall st, solve call = st -> terminal st = true ->
            (exists e, st = Failed e) \/
            exists k T prev, reachable call (Iterating k T prev) /\
                             step call (Iterating k T prev) = st).
  { intros st Hs Ht.
    destruct (terminal_predecessor call st) as (st' & Hr & Hnt & Hstep);
      [rewrite <- Hs; apply solve_reachable|done|].
    destruct st' as [|k T prev| | |]; try done.
    - left. cbn [step] in Hstep. case_decide; [eexists; by rewrite <- Hstep|].
      destruct (requires _ _ _); [by rewrite <- Hstep in Ht|].
      eexists; by rewrite <- Hstep.
    - right. by exists k, T, prev. }
  split; [|split; [|split]].
  - pose proof (solve_terminal call) as Ht.
    destruct (solve call) as [| |res|res|e]; try done; eauto.
  - intros res. split.
    + intros Hs. destruct (Hpred _ Hs eq_refl) as [[e [=]]|(k & T & prev & Hr & Hstep)].
      rewrite step_iterating in Hstep. cbv zeta in Hstep.
      case_decide; [done|].
      destruct (converged _ _ _ _) eqn:Hc; [|by case_decide].
      injection Hstep as <-.
      destruct prev as [[pf pr]|]; [|done].
      apply bool_decide_eq_true in Hc as [Hf Hrm].
      by exists k, T, pf, pr.
    + intros (k & T & pf & pr & Hr & -> & Hf & Hrm).
      apply solve_from_reachable; [|done].
      pose proof (reachable_step call _ Hr) as Hr'.
      rewrite step_iterating in Hr'. cbv zeta in Hr'.
      apply reachable_iterating in Hr as (_ & _ & (k' & _ & _ & -> & _)).
      rewrite decide_False in Hr' by (by intros [[=] _]).
      unfold converged in Hr'. by rewrite bool_decide_eq_true_2 in Hr'.
  - intros res. split.
    + intros Hs. destruct (Hpred _ Hs eq_refl) as [[e [=]]|(k & T & prev & Hr & Hstep)].
      rewrite step_iterating in Hstep. cbv zeta in Hstep.
      case_decide as Hk; [done|].
      destruct (converged _ _ _ _) eqn:Hc; [done|].
      case_decide as Hmax; [|done]. injection Hstep as <-.
      by exists k, T, prev.
    + intros (k & T & prev & Hr & Hk & -> & Hc & Hmax).
      apply solve_from_reachable; [|done].
      pose proof (reachable_step call _ Hr) as Hr'.
      rewrite step_iterating in Hr'. cbv zeta in Hr'.
      rewrite decide_False, Hc, decide_True in Hr' by done. done.
  - intros k T prev Hr.
    apply reachable_iterating in Hr as (_ & _ & H).
    destruct prev as [[pf pr]|]; [done|]. by destruct H.
Qed.

End CoreProperties.

(** Runs of the core on the example clouds, with [rational_numerics]. *)
Section CoreRuns.
Import Core.
Local Open Scope Qc_scope.

Lemma downsample_means_witness :
  exists out ks,
    downsample (num := rational_numerics) example_target (Q2Qc (3 # 2)) = inr out /\
    (size out <= size example_target)%nat /\
    points out = map (fun k => vmean (cell (Q2Qc (3 # 2)) example_target k)) ks /\
    NoDup ks /\
    (forall q, q ∈ points example_target -> voxel_of (Q2Qc (3 # 2)) q ∈ ks) /\
    Forall (fun k =>
              cell (Q2Qc (3 # 2)) example_target k <> [] /\
              Forall (in_cube (Q2Qc (3 # 2)) k) (cell (Q2Qc (3 # 2)) example_target k) /\
              vle (min_bound (cell (Q2Qc (3 # 2)) example_target k))
                  (vmean (cell (Q2Qc (3 # 2)) example_target k)) /\
              vle (vmean (cell (Q2Qc (3 # 2)) example_target k))
                  (max_bound (cell (Q2Qc (3 # 2)) example_target k))) ks.
Proof.
  apply (downsample_means (num := rational_numerics) example_target (Q2Qc (3 # 2))).
  reflexivity.
Defined.

Lemma colored_without_color_is_point_to_plane_witness :
  let cs := correspondences_at (example_solve PointToPlane (Q2Qc (1 # 2)) 5) identity in
  exists T f r,
    estimateIncrement (num := rational_numerics) (ColoredICP 1) cs
      example_source example_target = inr (T, f, r) /\
    estimateIncrement (num := rational_numerics) PointToPlane cs
      example_source example_target = inr (T, f, r).
Proof.
  intros cs.
  apply (colored_without_color_is_point_to_plane (num := rational_numerics) 1 cs
           example_source example_target).
  - apply Qc_is_canon. reflexivity.
  - vm_compute. eauto.
  - vm_compute. eauto.
  - vm_compute. eauto.
  - vm_compute. eauto.
Defined.



Lemma no_correspondences_only_at_iteration_0_witness :
  exists res,
    solve (num := rational_numerics) (example_solve PointToPlane (Q2Qc (1 # 2)) 5)
      = Converged res \/
    solve (num := rational_numerics) (example_solve PointToPlane (Q2Qc (1 # 2)) 5)
      = MaxIterationsReached res.
Proof.
  apply (proj1 (proj2 (no_correspondences_only_at_iteration_0
                         (num := rational_numerics)
                         (example_solve PointToPlane (Q2Qc (1 # 2)) 5)))).
  - vm_compute. discriminate.
  - vm_compute. reflexivity.
  - vm_compute. discriminate.
Defined.

Lemma solve_ends_converged_or_at_max_witness :
  let call := example_solve PointToPlane (Q2Qc (1 # 2)) 5 in
  exists res k T pf pr,
    solve (num := rational_numerics) call = Converged res /\
    reachable (num := rational_numerics) call (Iterating k T (Some (pf, pr))) /\
    res = iteration (num := rational_numerics) call T /\
    Qcabs (fitness res - pf) < relativeFitness (criteria call) /\
    Qcabs (inlierRmse res - pr) < relativeRmse (criteria call).
Proof.
  intros call.
  assert (exists res, solve (num := rational_numerics) call = Converged res)
    as [res Hs] by (eexists; vm_compute; reflexivity).
  destruct (proj1 (proj1 (proj2 (solve_ends_converged_or_at_max
                                   (num := rational_numerics) call)) res) Hs)
    as (k & T & pf & pr & H).
  exists res, k, T, pf, pr. split; [exact Hs|exact H].
Defined.

(** The solve of the example recovers the inverse of the motion, in
    [Converged]; with two iterations allowed it ends in
    [MaxIterationsReached]. *)
Example example_converges :
  exists res,
    solve (num := rational_numerics) (example_solve PointToPlane (Q2Qc (1 # 2)) 5)
      = Converged res /\
    translation (transformation res) = (Q2Qc (-1 # 10), Q2Qc (1 # 20), Q2Qc (-1 # 30)) /\
    fitness res = 1 /\ inlierRmse res = 0.
Proof.
  eexists. split; [vm_compute; reflexivity|].
  split; [|split]; repeat f_equal; apply Qc_is_canon; reflexivity.
Qed.

Example example_reaches_max :
  exists res,
    solve (num := rational_numerics) (example_solve PointToPlane (Q2Qc (1 # 2)) 2)
      = MaxIterationsReached res.
Proof. eexists. vm_compute. reflexivity. Qed.

(** Section 8: clouds further apart than the correspondence distance. *)
Example example_no_overlap :
  solve (num := rational_numerics) (example_solve PointToPlane (Q2Qc (1 # 100)) 5)
    = Failed NoCorrespondences.
Proof. vm_compute. reflexivity. Qed.

Example example_negative_iterations :
  solve (num := rational_numerics) (example_solve PointToPlane (Q2Qc (1 # 2)) (-1))
    = Failed InvalidArgument.
Proof. vm_compute. reflexivity. Qed.

Example example_missing_normals :
  estimateIncrement (num := rational_numerics) PointToPlane [] example_source
    {| points := points example_target; normals := None; colors := None |}
    = inl MissingAttribute.
Proof. reflexivity. Qed.

(** Without target normals the solve is refused before its first
    iteration. *)
Example example_solve_missing_normals :
  solve (num := rational_numerics)
    {| source := example_source;
       target := {| points := points example_target; normals := None; colors := None |};
       maxCorrespondenceDistance := Q2Qc (1 # 2);
       initial := identity;
       estimator := PointToPlane;
       criteria := criteria (example_solve PointToPlane (Q2Qc (1 # 2)) 5) |}
    = Failed MissingAttribute.
Proof. reflexivity. Qed.

Example example_voxel_size_zero :
  downsample (num := rational_numerics) example_target 0 = inl InvalidArgument.
Proof. reflexivity. Qed.

End CoreRuns.

Section ScriptProperties.
Import Script.
Context {cloud : Type} {lib : Cupoch cloud}.

(** C7. In every run of the script the colored-ICP solves form a chain
    seeded with the identity: the first solve is given [np.identity(4)] and
    every later one is given exactly the transformation that the solve
    before it returned; a run that ends normally makes three of them. *)
Theorem multi_scale_seeding (h : gmap loc cloud) :
  let calls := colored_solves (emitted (main h)) in
  seeded (np_identity 4) calls /\
  (forall u, value (main h) = inr u ->
     exists r1 r2 r3,
       calls = [ (np_identity 4, inr r1);
                 (transformation r1, inr r2);
                 (transformation r2, inr r3) ]).
Proof.
  pose proof (wp_main h) as Hm. unfold wp, main_post in Hm.
  destruct Hm as (s & t & st0 & pre & mid & fin & out & Hes & Hpre & Hfin & Hst0 & Hmid & Hv).
  cbv zeta. generalize dependent (main h). intros o Hes Hv.
  rewrite Hes, !colored_solves_app.
  rewrite (colored_solves_quiet pre), (colored_solves_quiet fin) by done.
  rewrite app_nil_r. simpl. split.
  - rewrite <- Hst0. by eapply levels_trace_seeded.
  - intros u Hu. rewrite Hu in Hv.
    destruct Hv as (l0 & l1 & l2 & st' & _ & -> & _).
    apply levels_trace_three in Hmid
      as (sd0 & td0 & r1 & sd1 & td1 & r2 & sd2 & td2 & r3 & -> & _).
    exists r1, r2, r3. rewrite Hst0. reflexivity.
Qed.

(** C8. [draw_registration_result_original_color] leaves the caller's
    source and target clouds as they were: the one object it transforms is
    the deep copy of the source, whose reference is new. *)
Theorem draw_keeps_the_clouds (h : gmap loc cloud) source target T cs ct :
  h !! source = Some cs ->
  h !! target = Some ct ->
  let o := draw_registration_result_original_color source target T h in
  final o !! source = Some cs /\
  final o !! target = Some ct /\
  (forall l m, In (EvTransform l m) (emitted o) ->
     h !! l = None /\ In (EvDeepcopy source l) (emitted o)).
Proof.
  intros Hs Ht.
  pose proof (wp_draw_registration_result_original_color source target T h) as Hd.
  unfold wp, draw_post in Hd. cbv zeta.
  generalize dependent (draw_registration_result_original_color source target T h).
  intros o (Hframe & l0 & Hl0 & Hes).
  split; [|split].
  - rewrite Hframe; eauto.
  - rewrite Hframe; eauto.
  - assert (exists n, emitted o = take n (draw_events source target T l0)) as (n & ->).
    { destruct (value o); [done|]. exists 3. by rewrite Hes. }
    intros l m Hin.
    destruct n as [|[|n]]; simpl in Hin.
    + done.
    + destruct Hin as [|[]]; done.
    + destruct Hin as [|[[= <- _]|Hin]]; [done| |].
      * split; [done|]. simpl. auto.
      * destruct n; simpl in Hin; [done|].
        destruct Hin as [|Hin]; [done|]. destruct n; done.
Qed.

(** C9. In every run of the script, each normal estimation searches within
    twice the voxel size of its pass, the doubling being exact, with at
    most 30 neighbours, and each colored-ICP solve is given the voxel size
    of its pass as maximal correspondence distance; in a run that ends
    normally the three passes use the voxel sizes 0.04, 0.02 and 0.01. *)
Theorem level_parameters (h : gmap loc cloud) :
  let es := emitted (main h) in
  levels_ok None es /\
  (forall u, value (main h) = inr u ->
     solve_distances es = voxel_radius /\
     normals_params es =
       flat_map (fun v => [ {| radius := (v * 2)%float; max_nn := 30 |};
                            {| radius := (v * 2)%float; max_nn := 30 |} ])
                voxel_radius).
Proof.
  pose proof (wp_main h) as Hm. unfold wp, main_post in Hm.
  destruct Hm as (s & t & st0 & pre & mid & fin & out & Hes & Hpre & Hfin & Hst0 & Hmid & Hv).
  cbv zeta. generalize dependent (main h). intros o Hes Hv.
  rewrite Hes. split.
  - apply levels_ok_quiet; [done|]. by eapply levels_trace_ok.
  - intros u Hu. rewrite Hu in Hv.
    destruct Hv as (l0 & l1 & l2 & st' & -> & -> & ->).
    apply levels_trace_three in Hmid
      as (sd0 & td0 & r1 & sd1 & td1 & r2 & sd2 & td2 & r3 & -> & _).
    split; reflexivity.
Qed.

(** C10. In a run of the script that ends normally, the result that is
    reported last is the one returned by the solve of the last pass (voxel
    size 0.01, 14 iterations) on the two down-sampled clouds of that pass;
    after it is printed the script makes no further solve or evaluation:
    it copies the source it read, transforms the copy by the
    transformation of that result, and draws the copy with the target it
    read. *)
Theorem final_result_is_last_level (h : gmap loc cloud) u :
  value (main h) = inr u ->
  exists s t before init sd td r3 l,
    emitted (main h) =
      before
      ++ level_events s t 14 0.01 2 init sd td (inr r3)
      ++ draw_events s t (transformation r3) l /\
    In (EvRead "../../testdata/colored_icp/frag_115.ply" s) before /\
    In (EvRead "../../testdata/colored_icp/frag_116.ply" t) before /\
    last (level_events s t 14 0.01 2 init sd td (inr r3)) = Some (EvPrint (PResult r3)).
Proof.
  pose proof (wp_main h) as Hm. unfold wp, main_post in Hm.
  destruct Hm as (s & t & st0 & pre & mid & fin & out & Hes & Hpre & Hfin & Hst0 & Hmid & Hv).
  generalize dependent (main h). intros o Hes Hv Hu.
  rewrite Hu in Hv. destruct Hv as (l0 & l1 & l2 & st' & -> & -> & ->).
  apply levels_trace_three in Hmid
    as (sd0 & td0 & r1 & sd1 & td1 & r2 & sd2 & td2 & r3 & -> & ->).
  exists s, t,
    (prelude_events s t l0 st0.2 l1
     ++ level_events s t 50 0.04 0 st0.1 sd0 td0 (inr r1)
     ++ level_events s t 30 0.02 1 (transformation r1) sd1 td1 (inr r2)),
    (transformation r2), sd2, td2, r3, l2.
  split; [|split; [|split]].
  - rewrite Hes, <- !app_assoc. reflexivity.
  - simpl. auto.
  - simpl. auto.
  - reflexivity.
Qed.

End ScriptProperties.

(** ** What the script computes and what it leaves in the store *)
Section ScriptValues.
Import Script.
Context {cloud : Type} {lib : Cupoch cloud}.

(** X1. On a source and a target that are in the store, the drawing helper
    makes one new object.  If the library transforms the source by the
    float32 cast of the transformation, the new object holds the
    transformed cloud and is drawn with the target itself, as a list of
    two; if the transform raises, the helper raises the same exception,
    draws nothing, and the new object holds the untransformed copy.  The
    store is otherwise as it was. *)
Theorem draw_shows_the_transformed_copy (h : gmap loc cloud) source target T cs ct :
  h !! source = Some cs ->
  h !! target = Some ct ->
  let o := draw_registration_result_original_color source target T h in
  exists l, h !! l = None /\
    match transform cs (astype_float32 T) with
    | inr c' =>
        value o = inr tt /\ final o = <[l := c']> h /\
        emitted o = [EvDeepcopy source l; EvTransform l (astype_float32 T);
                     EvDraw [l; target]]
    | inl e =>
        value o = inl e /\ final o = <[l := cs]> h /\
        emitted o = [EvDeepcopy source l; EvTransform l (astype_float32 T)]
    end.
Proof.
  intros Hs Ht. cbv zeta.
  apply (wp_draw_valid source target T h cs ct
           (fun v h' es => exists l, h !! l = None /\
              match transform cs (astype_float32 T) with
              | inr c' => v = inr tt /\ h' = <[l := c']> h /\
                          es = [EvDeepcopy source l; EvTransform l (astype_float32 T);
                                EvDraw [l; target]]
              | inl e => v = inl e /\ h' = <[l := cs]> h /\
                         es = [EvDeepcopy source l; EvTransform l (astype_float32 T)]
              end)); [done|done| |].
  - intros l e Hl He. exists l. unfold drawn_value in He. rewrite He. done.
  - intros l c' Hl Hc. exists l. unfold drawn_value in Hc. rewrite Hc. done.
Qed.

(** X2. The multi-scale loop, on a source and a target that are in the
    store, computes what the composition of the library calls computes on
    their values: every pass down-samples the two clouds as they were
    before the loop, estimates normals on the two down-sampled clouds and
    aligns these, seeded by the pass before; the first exception ends it.
    It prints the results of the passes that returned, and every object of
    the store before the loop has its value after it. *)
Theorem multi_scale_computes_the_fold (h : gmap loc cloud) source target
    (st : loop_state) cs ct :
  h !! source = Some cs ->
  h !! target = Some ct ->
  let o := multi_scale source target st h in
  value o = multi_scale_value cs ct (seq 0 3) st /\
  kept h (final o) /\
  printed_results (emitted o) = multi_scale_results cs ct (seq 0 3) (fst st).
Proof.
  intros Hs Ht. cbv zeta.
  exact (wp_multi_scale_value source target (seq 0 3) st h cs ct Hs Ht).
Qed.

(** X3. From every store, the script ends as the composition of its library
    calls on the clouds read from the two files does: the point-to-plane
    solve and every pass of the loop work on the clouds as read, whatever
    was drawn before, and the first exception of a read, a transform, a
    down-sampling, a normal estimation or a solve is the exception of the
    script. *)
Theorem main_ends_as_its_calls (h : gmap loc cloud) :
  value (main h) = main_value.
Proof. exact (proj1 (wp_main_value h)). Qed.

(** X4. The script changes no object that was in the store before it, and
    at its end, however it ends, a cloud that it read from a file is in the
    store as it was read, at the reference the read returned. *)
Theorem main_keeps_what_it_reads (h : gmap loc cloud) :
  let o := main h in
  kept h (final o) /\
  (forall cs,
     read_point_cloud "../../testdata/colored_icp/frag_115.ply" = inr cs ->
     exists s, h !! s = None /\
       EvRead "../../testdata/colored_icp/frag_115.ply" s ∈ emitted o /\
       final o !! s = Some cs) /\
  (forall cs ct,
     read_point_cloud "../../testdata/colored_icp/frag_115.ply" = inr cs ->
     read_point_cloud "../../testdata/colored_icp/frag_116.ply" = inr ct ->
     exists t, h !! t = None /\
       EvRead "../../testdata/colored_icp/frag_116.ply" t ∈ emitted o /\
       final o !! t = Some ct).
Proof.
  destruct (wp_main_value h) as (_ & Hk & H1 & H2 & _). cbv zeta. auto.
Qed.

(** X5. A run of the script that ends normally prints four results, in this
    order: that of the point-to-plane solve on the two clouds as read, with
    distance 0.02 from the identity, and those of the three passes on the
    same two clouds, the first seeded with the identity and each later one
    with the transformation of the result printed before it. *)
Theorem main_prints_four_results (h : gmap loc cloud) u :
  value (main h) = inr u ->
  exists cs ct r0 r1 r2 r3,
    read_point_cloud "../../testdata/colored_icp/frag_115.ply" = inr cs /\
    read_point_cloud "../../testdata/colored_icp/frag_116.ply" = inr ct /\
    registration_icp cs ct 0.02 (np_identity 4)
      TransformationEstimationPointToPlane = inr r0 /\
    level_value cs ct 0 (np_identity 4) = inr r1 /\
    level_value cs ct 1 (transformation r1) = inr r2 /\
    level_value cs ct 2 (transformation r2) = inr r3 /\
    printed_results (emitted (main h)) = [r0; r1; r2; r3].
Proof.
  intros Hu.
  destruct (wp_main_value h) as (Hv & _ & _ & _ & Hp).
  destruct (Hp u Hu) as (cs & ct & r0 & Hcs & Hct & Hr0 & Hpr).
  rewrite Hu in Hv. unfold main_value in Hv.
  rewrite Hcs, Hct in Hv. cbn [and_then] in Hv.
  destruct (drawn_value cs (np_identity 4)); [done|]. cbn [and_then] in Hv.
  rewrite Hr0 in Hv. cbn [and_then] in Hv.
  destruct (drawn_value cs (transformation r0)); [done|].
  cbn [and_then seq multi_scale_value fst] in Hv.
  cbn [seq multi_scale_results] in Hpr.
  destruct (level_value cs ct 0 (np_identity 4)) as [|r1] eqn:H1; [done|].
  cbn [and_then fst] in Hv.
  destruct (level_value cs ct 1 (transformation r1)) as [|r2] eqn:H2; [done|].
  cbn [and_then fst] in Hv.
  destruct (level_value cs ct 2 (transformation r2)) as [|r3] eqn:H3; [done|].
  by exists cs, ct, r0, r1, r2, r3.
Qed.

(** X6. The script adds no failure of its own.  From every store it ends
    normally exactly when every library call that it makes returns: the
    two reads, the transforms of the three drawings, the point-to-plane
    solve, and in each of the three passes the two down-samplings at the
    voxel size of the pass, the two normal estimations and the colored
    solve.  The list lookups of the three passes are in range and the
    references that the script uses are in the store when it uses them: an
    exception that ends the script is one that a call of the library
    raised. *)
Theorem main_ends_normally_if_calls_return (h : gmap loc cloud) :
  (value (main h) = inr tt <-> calls_return) /\
  (forall e, value (main h) = inl e -> library_raises e).
Proof.
  rewrite (proj1 (wp_main_value h)). unfold main_value, drawn_value.
  split; [split|].
  - destruct (read_point_cloud "../../testdata/colored_icp/frag_115.ply")
      as [|cs] eqn:Hcs; [done|].
    destruct (read_point_cloud "../../testdata/colored_icp/frag_116.ply")
      as [|ct] eqn:Hct; [done|]. cbn [and_then].
    destruct (transform cs (astype_float32 (np_identity 4))) as [|c0] eqn:Hc0; [done|].
    cbn [and_then].
    destruct (registration_icp cs ct _ _ _) as [|r0] eqn:Hr0; [done|]. cbn [and_then].
    destruct (transform cs (astype_float32 (transformation r0))) as [|c1] eqn:Hc1; [done|].
    cbn [and_then seq multi_scale_value fst].
    destruct (level_value cs ct 0 (np_identity 4)) as [|r1] eqn:H1; [done|].
    cbn [and_then fst].
    destruct (level_value cs ct 1 (transformation r1)) as [|r2] eqn:H2; [done|].
    cbn [and_then fst].
    destruct (level_value cs ct 2 (transformation r2)) as [|r3] eqn:H3; [done|].
    cbn [and_then snd].
    destruct (transform cs (astype_float32 (transformation r3))) as [|c2] eqn:Hc2; [done|].
    intros _. exists cs, ct, r0, r1, r2, r3.
    apply level_value_inr in H1 as (? & ? & [= <-] & [= <-] & H1).
    apply level_value_inr in H2 as (? & ? & [= <-] & [= <-] & H2).
    apply level_value_inr in H3 as (? & ? & [= <-] & [= <-] & H3).
    split_and!; eauto.
  - intros (cs & ct & r0 & r1 & r2 & r3 & -> & -> & [c0 Hc0] & Hr0 & [c1 Hc1]
              & H1 & H2 & H3 & [c2 Hc2]).
    cbn [and_then]. rewrite Hc0. cbn [and_then]. rewrite Hr0. cbn [and_then].
    rewrite Hc1. cbn [and_then seq multi_scale_value fst].
    rewrite (proj2 (level_value_inr cs ct 0 _ r1)) by (by eexists _, _).
    cbn [and_then fst].
    rewrite (proj2 (level_value_inr cs ct 1 _ r2)) by (by eexists _, _).
    cbn [and_then fst].
    rewrite (proj2 (level_value_inr cs ct 2 _ r3)) by (by eexists _, _).
    cbn [and_then snd]. by rewrite Hc2.
  - intros e. unfold library_raises.
    destruct (read_point_cloud "../../testdata/colored_icp/frag_115.ply")
      as [|cs] eqn:Hcs; [intros [= <-]; left; eauto|].
    destruct (read_point_cloud "../../testdata/colored_icp/frag_116.ply")
      as [|ct] eqn:Hct; [intros [= <-]; left; eauto|]. cbn [and_then].
    destruct (transform cs (astype_float32 (np_identity 4))) as [|c0] eqn:Hc0;
      [intros [= <-]; do 3 right; left; eauto|].
    cbn [and_then].
    destruct (registration_icp cs ct _ _ _) as [|r0] eqn:Hr0;
      [intros [= <-]; do 4 right; left; eauto 10|]. cbn [and_then].
    destruct (transform cs (astype_float32 (transformation r0))) as [|c1] eqn:Hc1;
      [intros [= <-]; do 3 right; left; eauto|].
    cbn [and_then seq multi_scale_value fst].
    destruct (level_value cs ct 0 (np_identity 4)) as [|r1] eqn:H1;
      [intros [= <-]; apply (level_value_inl cs ct 0 _ _ ltac:(lia) H1)|].
    cbn [and_then fst].
    destruct (level_value cs ct 1 (transformation r1)) as [|r2] eqn:H2;
      [intros [= <-]; apply (level_value_inl cs ct 1 _ _ ltac:(lia) H2)|].
    cbn [and_then fst].
    destruct (level_value cs ct 2 (transformation r2)) as [|r3] eqn:H3;
      [intros [= <-]; apply (level_value_inl cs ct 2 _ _ ltac:(lia) H3)|].
    cbn [and_then snd].
    destruct (transform cs (astype_float32 (transformation r3))) as [|c2] eqn:Hc2;
      [intros [= <-]; do 3 right; left; eauto|done].
Qed.

End ScriptValues.

(** Runs of the driver on [drifting_library], from the empty store. *)
Section ScriptRuns.
Import Script.

Lemma multi_scale_seeding_witness :
  exists r1 r2 r3,
    colored_solves (emitted (main (lib := drifting_library) ∅)) =
      [ (np_identity 4, inr r1); (transformation r1, inr r2); (transformation r2, inr r3) ].
Proof.
  apply (proj2 (multi_scale_seeding (lib := drifting_library) ∅) tt).
  vm_compute. reflexivity.
Defined.

Lemma draw_keeps_the_clouds_witness :
  let h : gmap loc (list (float * float * float)) :=
    <[2%positive := [(1, 0, 0)%float]]> (<[1%positive := [(0, 0, 0)%float]]> ∅) in
  let o := draw_registration_result_original_color (lib := drifting_library)
             1%positive 2%positive (np_identity 4) h in
  final o !! 1%positive = Some [(0, 0, 0)%float] /\
  final o !! 2%positive = Some [(1, 0, 0)%float] /\
  (forall l m, In (EvTransform l m) (emitted o) ->
     h !! l = None /\ In (EvDeepcopy 1%positive l) (emitted o)).
Proof.
  intros h.
  apply (draw_keeps_the_clouds (lib := drifting_library) h 1%positive 2%positive
           (np_identity 4) [(0, 0, 0)%float] [(1, 0, 0)%float]);
    vm_compute; reflexivity.
Defined.

Lemma level_parameters_witness :
  let es := emitted (main (lib := drifting_library) ∅) in
  solve_distances es = voxel_radius /\
  normals_params es =
    flat_map (fun v => [ {| radius := (v * 2)%float; max_nn := 30 |};
                         {| radius := (v * 2)%float; max_nn := 30 |} ])
             voxel_radius.
Proof.
  apply (proj2 (level_parameters (lib := drifting_library) ∅) tt).
  vm_compute. reflexivity.
Defined.

Lemma final_result_is_last_level_witness :
  exists s t before init sd td r3 l,
    emitted (main (lib := drifting_library) ∅) =
      before
      ++ level_events s t 14 0.01 2 init sd td (inr r3)
      ++ draw_events s t (transformation r3) l /\
    In (EvRead "../../testdata/colored_icp/frag_115.ply" s) before /\
    In (EvRead "../../testdata/colored_icp/frag_116.ply" t) before /\
    last (level_events s t 14 0.01 2 init sd td (inr r3)) = Some (EvPrint (PResult r3)).
Proof.
  apply (final_result_is_last_level (lib := drifting_library) ∅ tt).
  vm_compute. reflexivity.
Defined.

Lemma draw_shows_the_transformed_copy_witness :
  let h : gmap loc (list (float * float * float)) :=
    <[2%positive := [(1, 0, 0)%float]]> (<[1%positive := [(0, 0, 0)%float]]> ∅) in
  let o := draw_registration_result_original_color (lib := drifting_library)
             1%positive 2%positive (np_identity 4) h in
  exists l, h !! l = None /\
    match transform (Cupoch := drifting_library) [(0, 0, 0)%float]
            (astype_float32 (np_identity 4)) with
    | inr c' =>
        value o = inr tt /\ final o = <[l := c']> h /\
        emitted o = [EvDeepcopy 1%positive l;
                     EvTransform l (astype_float32 (np_identity 4));
                     EvDraw [l; 2%positive]]
    | inl e =>
        value o = inl e /\ final o = <[l := [(0, 0, 0)%float]]> h /\
        emitted o = [EvDeepcopy 1%positive l;
                     EvTransform l (astype_float32 (np_identity 4))]
    end.
Proof.
  intros h.
  apply (draw_shows_the_transformed_copy (lib := drifting_library) h 1%positive
           2%positive (np_identity 4) [(0, 0, 0)%float] [(1, 0, 0)%float]);
    vm_compute; reflexivity.
Defined.

Lemma multi_scale_computes_the_fold_witness :
  let h : gmap loc (list (float * float * float)) :=
    <[2%positive := [(1, 0, 0)%float]]> (<[1%positive := [(0, 0, 0)%float]]> ∅) in
  let st : loop_state :=
    (np_identity 4, {| transformation := np_identity 4; fitness := 0; inlier_rmse := 0 |}) in
  let o := multi_scale (lib := drifting_library) 1%positive 2%positive st h in
  value o = multi_scale_value (lib := drifting_library)
              [(0, 0, 0)%float] [(1, 0, 0)%float] (seq 0 3) st /\
  kept h (final o) /\
  printed_results (emitted o) =
    multi_scale_results (lib := drifting_library)
      [(0, 0, 0)%float] [(1, 0, 0)%float] (seq 0 3) (fst st).
Proof.
  intros h st.
  apply (multi_scale_computes_the_fold (lib := drifting_library) h 1%positive
           2%positive st [(0, 0, 0)%float] [(1, 0, 0)%float]);
    vm_compute; reflexivity.
Defined.

Lemma main_prints_four_results_witness :
  exists cs ct r0 r1 r2 r3,
    read_point_cloud (Cupoch := drifting_library)
      "../../testdata/colored_icp/frag_115.ply" = inr cs /\
    read_point_cloud (Cupoch := drifting_library)
      "../../testdata/colored_icp/frag_116.ply" = inr ct /\
    registration_icp (Cupoch := drifting_library) cs ct 0.02 (np_identity 4)
      TransformationEstimationPointToPlane = inr r0 /\
    level_value (lib := drifting_library) cs ct 0 (np_identity 4) = inr r1 /\
    level_value (lib := drifting_library) cs ct 1 (transformation r1) = inr r2 /\
    level_value (lib := drifting_library) cs ct 2 (transformation r2) = inr r3 /\
    printed_results (emitted (main (lib := drifting_library) ∅)) = [r0; r1; r2; r3].
Proof.
  apply (main_prints_four_results (lib := drifting_library) ∅ tt).
  vm_compute. reflexivity.
Defined.

Lemma main_ends_normally_if_calls_return_witness :
  value (main (lib := drifting_library) ∅) = inr tt.
Proof.
  apply (proj1 (main_ends_normally_if_calls_return (lib := drifting_library) ∅)).
  unfold calls_return, pass_returns. cbn [drifting_library read_point_cloud
    voxel_down_sample estimate_normals transform registration_icp
    registration_colored_icp].
  eexists _, _, _, _, _, _.
  split_and!; try reflexivity; try (eexists; reflexivity);
    eexists _, _, _, _; split_and!; reflexivity.
Defined.

End ScriptRuns.
